(** * n-dimensional Gaussian integrals by spherical coordinates

    A shallow embedding of [sympy/gaussian_integral.py]: the class
    [GaussianIntegral] with its constructor and its four methods
    [_cartesian_to_spherical], [jacobian], [jacobian_det] and [doit].

    The module only orchestrates a computer-algebra engine.  The part of the
    engine that the methods call is embedded next to them:
    - symbolic expressions are a datatype [expr] with a meaning in the reals
      ([eval]); two expressions are algebraically equal when they have the
      same meaning under every assignment of the symbols;
    - differentiation ([diff]) and the determinant ([Matrix_det], by
      cofactor expansion) are executable functions on expressions;
    - [simplify] is left abstract: any function on expressions that keeps
      the meaning;
    - [integrate] and [sqrt] build a term of type [value]; its meaning
      ([denotes]) is the iterated Riemann integral of the Standard Library,
      improper where a bound is [oo].

    The file has two parts: the definitions, then their properties.  The
    properties end with the values of [doit] in dimensions 1, 2 and 3, which
    need the Gaussian integral itself. *)

From Stdlib Require Import String.
From Stdlib Require Import List ZArith Lia Bool Arith Permutation.
From Stdlib Require Import Reals Lra Psatz.
Import ListNotations.
Local Open Scope nat_scope.
Local Open Scope list_scope.

Set Implicit Arguments.

(** ** Symbols and expressions *)

(** [Symbol('r')] is [Sym_r]; the symbol named [phi<i>] is [Sym_phi i]. *)
Inductive symbol : Type :=
| Sym_r
| Sym_phi (i : nat).

Definition symbol_eqb (x y : symbol) : bool :=
  match x, y with
  | Sym_r, Sym_r => true
  | Sym_phi i, Sym_phi j => Nat.eqb i j
  | _, _ => false
  end.

(** [symbols('phi0:' + str(k))]: the tuple (phi0, ..., phi<k-1>); it is empty
    for [k = 0]. *)
Definition symbols_phi0_upto (k : nat) : list symbol :=
  map Sym_phi (seq 0 k).

Inductive expr : Type :=
| Sym (s : symbol)
| Int (z : Z)
| Pi
| Add (a b : expr)
| Mul (a b : expr)
| Pow (a : expr) (k : nat)
| Cos (a : expr)
| Sin (a : expr)
| Exp (a : expr).

(** Unary minus is multiplication by -1, as in the engine. *)
Definition Neg (a : expr) : expr := Mul (Int (-1)) a.

Definition env : Type := symbol -> R.

Fixpoint eval (rho : env) (e : expr) : R :=
  match e with
  | Sym s => rho s
  | Int z => IZR z
  | Pi => PI
  | Add a b => eval rho a + eval rho b
  | Mul a b => eval rho a * eval rho b
  | Pow a k => eval rho a ^ k
  | Cos a => cos (eval rho a)
  | Sin a => sin (eval rho a)
  | Exp a => exp (eval rho a)
  end%R.

Definition upd (rho : env) (x : symbol) (t : R) : env :=
  fun y => if symbol_eqb y x then t else rho y.

(** [e.diff(x)]: symbolic differentiation. *)
Fixpoint diff (e : expr) (x : symbol) : expr :=
  match e with
  | Sym s => if symbol_eqb s x then Int 1 else Int 0
  | Int _ => Int 0
  | Pi => Int 0
  | Add a b => Add (diff a x) (diff b x)
  | Mul a b => Add (Mul (diff a x) b) (Mul a (diff b x))
  | Pow a k =>
      match k with
      | O => Int 0
      | S k' => Mul (Mul (Int (Z.of_nat k)) (Pow a k')) (diff a x)
      end
  | Cos a => Mul (Neg (Sin a)) (diff a x)
  | Sin a => Mul (Cos a) (diff a x)
  | Exp a => Mul (Exp a) (diff a x)
  end.

(** ** Exceptions and the method monad *)

Inductive exn : Type :=
| ValueError (msg : string)
| IndexError
| TypeError
| NonSquareMatrixError.

(** The instance attributes. *)
Record GaussianIntegral : Type := mkGaussianIntegral {
  n : Z;
  r : symbol;
  phis : list symbol
}.

(** A method runs on the instance [self]; it returns a result or raises, and
    hands the instance on to the next call. *)
Definition M (A : Type) : Type :=
  GaussianIntegral -> (exn + A) * GaussianIntegral.

Definition ret {A} (a : A) : M A := fun self => (inr a, self).

Definition bind {A B} (c : M A) (k : A -> M B) : M B :=
  fun self =>
    match c self with
    | (inr a, self') => k a self'
    | (inl e, self') => (inl e, self')
    end.

Definition raise {A} (e : exn) : M A := fun self => (inl e, self).

(** Reading an attribute [self.f]. *)
Definition attr {A} (f : GaussianIntegral -> A) : M A :=
  fun self => (inr (f self), self).

Definition lift {A} (x : exn + A) : M A := fun self => (x, self).

Declare Scope method_scope.
Delimit Scope method_scope with method.
Notation "x <- c ;; k" := (bind c (fun x => k))
  (at level 61, c at next level, right associativity) : method_scope.
Local Open Scope method_scope.

(** [for i in items: s = body(i, s)] *)
Fixpoint for_each {I St} (items : list I) (body : I -> St -> M St) (s : St)
  : M St :=
  match items with
  | [] => ret s
  | i :: items' => s' <- body i s ;; for_each items' body s'
  end.

(** [range(a, b)] *)
Definition range (a b : Z) : list Z :=
  map (fun k => (a + Z.of_nat k)%Z) (seq 0 (Z.to_nat (b - a))).

(** ** Python sequences *)

(** The position a Python index denotes in a sequence of length [len]:
    negative indices count from the end. *)
Definition py_index (len : nat) (i : Z) : option nat :=
  if ((0 <=? i) && (i <? Z.of_nat len))%Z then Some (Z.to_nat i)
  else if ((- Z.of_nat len <=? i) && (i <? 0))%Z
       then Some (Z.to_nat (Z.of_nat len + i))
       else None.

(** [l[i]] *)
Definition getitem {A} (l : list A) (i : Z) : M A :=
  match py_index (length l) i with
  | Some k =>
      match nth_error l k with
      | Some x => ret x
      | None => raise IndexError
      end
  | None => raise IndexError
  end.

Fixpoint list_set {A} (l : list A) (k : nat) (v : A) : list A :=
  match l, k with
  | [], _ => []
  | _ :: l', O => v :: l'
  | x :: l', S k' => x :: list_set l' k' v
  end.

(** [l[i] = v] *)
Definition setitem {A} (l : list A) (i : Z) (v : A) : M (list A) :=
  match py_index (length l) i with
  | Some k => ret (list_set l k v)
  | None => raise IndexError
  end.

(** ** Matrices *)

(** A matrix is the list of its rows. *)
Definition Matrix : Type := list (list expr).

(** [Matrix(xs)] of a flat list is a column vector. *)
Definition Matrix_of_list (xs : list expr) : Matrix :=
  map (fun x => [x]) xs.

(** [m.T] *)
Definition transpose (m : Matrix) : Matrix :=
  match m with
  | [] => []
  | row0 :: _ =>
      map (fun j => map (fun row => nth j row (Int 0)) m) (seq 0 (length row0))
  end.

(** [self.jacobian(X)]: [self] must be a row or a column vector; entry
    (j, i) of the result is [self[j].diff(X[i])]. *)
Definition Matrix_jacobian (self : Matrix) (X : list symbol)
  : exn + Matrix :=
  if (length self =? 1) || forallb (fun row => length row =? 1) self
  then inr (map (fun f => map (diff f) X) (concat self))
  else inl TypeError.

(** The determinant, by cofactor expansion along the last column, over any
    carrier with ring operations; a matrix is read through its entries. *)
Section Determinant.
Context {A : Type}.
Variables (zero one : A) (add mul : A -> A -> A) (opp : A -> A).

Fixpoint sum_upto (k : nat) (f : nat -> A) : A :=
  match k with
  | O => zero
  | S k' => add (sum_upto k' f) (f k')
  end.

Definition skip_row (i : nat) (m : nat -> nat -> A) : nat -> nat -> A :=
  fun k j => if k <? i then m k j else m (S k) j.

Definition signed (k : nat) (a : A) : A :=
  if Nat.even k then a else opp a.

Fixpoint laplace (size : nat) (m : nat -> nat -> A) : A :=
  match size with
  | O => one
  | S size' =>
      sum_upto size
        (fun i => signed (i + size')
                    (mul (m i size') (laplace size' (skip_row i m))))
  end.
End Determinant.

Definition entry (m : Matrix) (i j : nat) : expr :=
  nth j (nth i m []) (Int 0).

Definition det_expr (size : nat) (m : nat -> nat -> expr) : expr :=
  laplace (Int 0) (Int 1) Add Mul Neg size m.

Definition det_R (size : nat) (m : nat -> nat -> R) : R :=
  laplace 0%R 1%R Rplus Rmult Ropp size m.

(** [m.det()]: defined for square matrices only. *)
Definition Matrix_det (m : Matrix) : exn + expr :=
  if forallb (fun row => length row =? length m) m
  then inr (det_expr (length m) (entry m))
  else inl NonSquareMatrixError.

(** ** Integration limits and results *)

(** A bound of integration: an expression, or [oo]. *)
Inductive bound : Type :=
| Fin (e : expr)
| Oo.

(** The triple [(x, a, b)]. *)
Definition limit : Type := (symbol * bound * bound)%type.

(** What [doit] returns: the engine's [integrate(f, *limits)], possibly
    under [sqrt]. *)
Inductive value : Type :=
| integrate (f : expr) (limits : list limit)
| sqrt_of (v : value).

(** ** The class *)

(** [GaussianIntegral(n)] *)
Definition __init__ (n0 : Z) : exn + GaussianIntegral :=
  if (n0 <? 1)%Z then inl (ValueError "n must be at least 1."%string)
  else inr {| n := n0;
              r := Sym_r;
              phis := if (n0 =? 1)%Z then [Sym_phi 0]
                      else symbols_phi0_upto (Z.to_nat (n0 - 1)) |}.

(** The body of the loop of [_cartesian_to_spherical]. *)
Definition split_coordinate (i : Z) (x_coords : list expr)
  : M (list expr) :=
  old <- getitem x_coords i ;;
  ps <- attr phis ;; p <- getitem ps i ;;
  x_coords <- setitem x_coords i (Mul old (Cos (Sym p))) ;;
  ps' <- attr phis ;; p' <- getitem ps' i ;;
  ret (x_coords ++ [Mul old (Sin (Sym p'))]).

Definition _cartesian_to_spherical : M Matrix :=
  r0 <- attr r ;; ps <- attr phis ;; p <- getitem ps 0 ;;
  r1 <- attr r ;; ps' <- attr phis ;; p' <- getitem ps' 0 ;;
  let x_coords := [Mul (Sym r0) (Cos (Sym p)); Mul (Sym r1) (Sin (Sym p'))] in
  n0 <- attr n ;;
  x_coords <- for_each (range 1 (n0 - 1)) split_coordinate x_coords ;;
  ret (transpose (Matrix_of_list x_coords)).

Definition jacobian : M Matrix :=
  ps <- attr phis ;;
  let syms := ps in
  r0 <- attr r ;;
  let syms := r0 :: syms in
  x_coords <- _cartesian_to_spherical ;;
  lift (Matrix_jacobian x_coords syms).

Section Engine.

(** [e.simplify()]: some rewriting of [e] into an algebraically equal
    expression. *)
Variable simplify : expr -> expr.

Definition jacobian_det : M expr :=
  j <- jacobian ;;
  d <- lift (Matrix_det j) ;;
  ret (simplify d).

Definition doit : M value :=
  r0 <- attr r ;; ps <- attr phis ;; p <- getitem ps (-1) ;;
  let limits_of_int :=
    [(r0, Fin (Int 0), Oo); (p, Fin (Int 0), Fin (Mul (Int 2) Pi))] in
  ps' <- attr phis ;;
  limits_of_int <-
    for_each (removelast ps')
      (fun phi limits_of_int =>
         ret (limits_of_int ++ [(phi, Fin (Int 0), Fin Pi)]))
      limits_of_int ;;
  r1 <- attr r ;;
  d <- jacobian_det ;;
  let int := integrate (Mul (Exp (Neg (Pow (Sym r1) 2))) d) limits_of_int in
  n0 <- attr n ;;
  if (n0 =? 1)%Z then ret (sqrt_of int) else ret int.

End Engine.

(** ** The parametrization in the words of the specification *)

(** Replace the last coordinate [old] by [old * cos(p)] and append
    [old * sin(p)]. *)
Definition split_last (xs : list expr) (p : symbol) : list expr :=
  let old := last xs (Int 0) in
  removelast xs ++ [Mul old (Cos (Sym p)); Mul old (Sin (Sym p))].

Definition planar : list expr :=
  [Mul (Sym Sym_r) (Cos (Sym (Sym_phi 0)));
   Mul (Sym Sym_r) (Sin (Sym (Sym_phi 0)))].

(** Start from the planar pair and split once for each [i] from 1 to
    [n - 2], in order. *)
Definition spec_parametrization (dim : Z) : list expr :=
  fold_left (fun xs i => split_last xs (Sym_phi i))
    (seq 1 (Z.to_nat (dim - 2))) planar.

(** The same sequence after [m] splits, by recursion on [m]. *)
Fixpoint coords (m : nat) : list expr :=
  match m with
  | O => planar
  | S m' => split_last (coords m') (Sym_phi m)
  end.

(** The instance that [GaussianIntegral(dim)] builds when [dim >= 1]. *)
Definition instance (dim : Z) : GaussianIntegral :=
  {| n := dim; r := Sym_r;
     phis := symbols_phi0_upto (S (Z.to_nat (dim - 2))) |}.

(** Number of components of the parametrization, and size of the
    Jacobian. *)
Definition components (dim : Z) : nat := S (S (Z.to_nat (dim - 2))).

(** The variables of differentiation, [r] first, and the Jacobian of the
    parametrization with [m] splits: one row per component, one column per
    variable. *)
Definition variables (m : nat) : list symbol :=
  Sym_r :: symbols_phi0_upto (S m).

Definition jacobian_entries (m : nat) : Matrix :=
  map (fun f => map (diff f) (variables m)) (coords m).

(** The limits [doit] builds for [m + 1] angular symbols. *)
Definition limits (m : nat) : list limit :=
  (Sym_r, Fin (Int 0), Oo)
  :: (Sym_phi m, Fin (Int 0), Fin (Mul (Int 2) Pi))
  :: map (fun phi => (phi, Fin (Int 0), Fin Pi)) (symbols_phi0_upto m).

(** The integrand: [exp(-r**2)] times a determinant [d]. *)
Definition integrand (d : expr) : expr :=
  Mul (Exp (Neg (Pow (Sym Sym_r) 2))) d.

(** ** Using an instance *)

(** The expression [GaussianIntegral(dim).op()]: the method runs only if
    the constructor returned an instance. *)
Definition construct_then {A} (dim : Z) (op : M A) : exn + A :=
  match __init__ dim with
  | inl e => inl e
  | inr self => fst (op self)
  end.

(** The public queries, and what one of them returns. *)
Inductive query : Type :=
| q_jacobian
| q_jacobian_det
| q_doit.

Inductive answer : Type :=
| a_matrix (m : Matrix)
| a_expr (e : expr)
| a_value (v : value).

Definition map_result {A B} (f : A -> B) (c : M A) : M B :=
  a <- c ;; ret (f a).

Definition ask (simplify : expr -> expr) (q : query) : M answer :=
  match q with
  | q_jacobian => map_result a_matrix jacobian
  | q_jacobian_det => map_result a_expr (jacobian_det simplify)
  | q_doit => map_result a_value (doit simplify)
  end.

(** Ask the queries one after the other on the same instance; an exception
    is caught and recorded, and the next query runs on the instance as the
    failed one left it. *)
Fixpoint ask_all (simplify : expr -> expr) (qs : list query)
  (self : GaussianIntegral) : list (exn + answer) * GaussianIntegral :=
  match qs with
  | [] => ([], self)
  | q :: qs' =>
      let (a, self') := ask simplify q self in
      let (rest, self'') := ask_all simplify qs' self' in
      (a :: rest, self'')
  end.

(** What [doit] does to the raw integral. *)
Definition post_process (dim : Z) (int : value) : value :=
  if (dim =? 1)%Z then sqrt_of int else int.

(** ** Algebraic facts to be stated *)

(** Sum of the squares of the components. *)
Definition sum_squares (rho : env) (xs : list expr) : R :=
  fold_right (fun x acc => (eval rho x ^ 2 + acc)%R) 0%R xs.

(** Whether a symbol occurs in an expression. *)
Fixpoint mentions (x : symbol) (e : expr) : bool :=
  match e with
  | Sym s => symbol_eqb s x
  | Int _ | Pi => false
  | Add a b | Mul a b => mentions x a || mentions x b
  | Pow a _ | Cos a | Sin a | Exp a => mentions x a
  end.

(** The variable of column [j]: r, phi0, phi1, ... *)
Definition var_at (j : nat) : symbol :=
  match j with
  | O => Sym_r
  | S j' => Sym_phi j'
  end.

(** [f 0 * f 1 * ... * f (k-1)], as an expression and as a real. *)
Fixpoint product_upto (k : nat) (f : nat -> expr) : expr :=
  match k with
  | O => Int 1
  | S k' => Mul (product_upto k' f) (f k')
  end.

Fixpoint Rprod (k : nat) (f : nat -> R) : R :=
  match k with
  | O => 1%R
  | S k' => (Rprod k' f * f k')%R
  end.

(** [sin(phi0)^k * sin(phi1)^(k-1) * ... * sin(phi_{k-1})^1]; a further
    factor [sin(phi_k)^0] would not change the value. *)
Definition sine_powers (k : nat) : expr :=
  product_upto k (fun i => Pow (Sin (Sym (Sym_phi i))) (k - i)).

(** The closed form the specification gives for the determinant in
    dimension [dim >= 2]: r^n times the sine powers. *)
Definition spec_determinant (dim : nat) : expr :=
  Mul (Pow (Sym Sym_r) dim) (sine_powers (dim - 2)).

(** The volume element of spherical coordinates: r^(n-1) times the sine
    powers. *)
Definition volume_element (dim : nat) : expr :=
  Mul (Pow (Sym Sym_r) (dim - 1)) (sine_powers (dim - 2)).

(** The value, under [rho], of the entry in row [i] and column [j] of the
    Jacobian of the parametrization with [m] splits. *)
Definition jacobian_at (rho : env) (m i j : nat) : R :=
  eval rho (diff (nth i (coords m) (Int 0)) (var_at j)).

(** ** The meaning of a result *)

(** [v] is the Riemann integral of [f] from [a] to [b]. *)
Definition is_RInt (f : R -> R) (a b v : R) : Prop :=
  exists pr : Riemann_integrable f a b, RiemannInt pr = v.

Definition tends_to_at_infinity (g : R -> R) (l : R) : Prop :=
  forall eps : R, (0 < eps)%R ->
    exists bound : R, forall b : R, (bound <= b)%R -> (Rabs (g b - l) < eps)%R.

(** [v] is the improper integral of [f] from [a] to infinity: the limit of
    the integrals from [a] to [b]. *)
Definition is_RInt_to_infinity (f : R -> R) (a v : R) : Prop :=
  exists g : R -> R,
    (forall b : R, (a <= b)%R -> is_RInt f a b (g b)) /\
    tends_to_at_infinity g v.

(** The integral of [F] over one limit [(x, a, b)], the other symbols
    having the values [rho] gives them. *)
Definition integral_over (l : limit) (F : env -> R) (rho : env) (v : R)
  : Prop :=
  match l with
  | (x, Fin a, Fin b) =>
      is_RInt (fun t => F (upd rho x t)) (eval rho a) (eval rho b) v
  | (x, Fin a, Oo) =>
      is_RInt_to_infinity (fun t => F (upd rho x t)) (eval rho a) v
  | (_, Oo, _) => False
  end.

(** The iterated integral over a list of limits, the first limit being the
    innermost integral, as in [integrate(f, l1, l2, ...)]. *)
Inductive integral : (env -> R) -> list limit -> env -> R -> Prop :=
| integral_nil (F : env -> R) (rho : env) : integral F [] rho (F rho)
| integral_cons (F G : env -> R) (l : limit) (ls : list limit) (rho : env)
    (v : R) :
    (forall rho' : env, integral_over l F rho' (G rho')) ->
    integral G ls rho v ->
    integral F (l :: ls) rho v.

(** The real number a result stands for. *)
Inductive denotes (rho : env) : value -> R -> Prop :=
| denotes_integrate (f : expr) (ls : list limit) (v : R) :
    integral (fun rho' => eval rho' f) ls rho v ->
    denotes rho (integrate f ls) v
| denotes_sqrt (a : value) (v : R) :
    denotes rho a v -> (0 <= v)%R -> denotes rho (sqrt_of a) (sqrt v).

(** Twice an antiderivative of [r exp(-r^2)]: [-exp(-r^2)]. *)
Definition minus_gauss : expr := Neg (Exp (Neg (Pow (Sym Sym_r) 2))).

(** [r^2 exp(-r^2)], the radial integrand in dimension 3, as a function of
    r. *)
Definition moment_expr : expr :=
  Mul (Pow (Sym Sym_r) 2) (Exp (Neg (Pow (Sym Sym_r) 2))).

Definition gauss_moment (t : R) : R :=
  eval (upd (fun _ => 0%R) Sym_r t) moment_expr.

(** ** Functions used to evaluate the Gaussian integral

    The integral of [exp(-x^2)] from 0 to [t], squared, plus the integral
    over x from 0 to 1 of [exp(-t^2 (1 + x^2)) / (1 + x^2)] does not depend
    on [t].  In the expressions below r stands for [t] and phi0 for [x]. *)

Definition gauss : expr := Exp (Neg (Pow (Sym Sym_r) 2)).

Definition damped : expr :=
  Exp (Neg (Mul (Pow (Sym Sym_r) 2) (Add (Int 1) (Pow (Sym (Sym_phi 0)) 2)))).

Definition damped1 : expr := Mul (Mul (Int (-2)) (Sym Sym_r)) damped.

Definition stretched : expr :=
  Mul (Sym Sym_r) (Exp (Neg (Pow (Mul (Sym Sym_r) (Sym (Sym_phi 0))) 2))).

Definition one_plus_square : expr := Add (Int 1) (Pow (Sym (Sym_phi 0)) 2).

(** [r exp(-r^2)]; minus half of it differs from an antiderivative of
    [r^2 exp(-r^2)] by half an antiderivative of [exp(-r^2)]. *)
Definition r_gauss : expr := Mul (Sym Sym_r) gauss.

Definition at_t (t : R) : env := upd (fun _ => 0%R) Sym_r t.

Definition at_tx (t x : R) : env := upd (at_t t) (Sym_phi 0) x.

Definition gauss_fun (t : R) : R := eval (at_t t) gauss.

(** [exp(-t^2 (1 + x^2)) / (1 + x^2)], and its first and second derivatives
    in [t]. *)
Definition kernel (t x : R) : R :=
  (/ (1 + x ^ 2) * eval (at_tx t x) damped)%R.

Definition kernel_t (t x : R) : R := eval (at_tx t x) damped1.

Definition kernel_tt (t x : R) : R := eval (at_tx t x) (diff damped1 Sym_r).

(** ** The integral in every dimension *)

(** The integral of [t^k exp(-t^2)] over t from 0 to infinity. *)
Fixpoint radial_moment (k : nat) : R :=
  match k with
  | O => (sqrt PI / 2)%R
  | S O => (1 / 2)%R
  | S (S k') => ((INR k' + 1) / 2 * radial_moment k')%R
  end.

(** The integral of [sin(t)^k] over t from 0 to pi. *)
Fixpoint wallis (k : nat) : R :=
  match k with
  | O => PI
  | S O => 2%R
  | S (S k') => ((INR k' + 1) / (INR k' + 2) * wallis k')%R
  end.

(** [r^(k+1) exp(-r^2)] and [-cos(phi0) sin(phi0)^(k+1)], whose derivatives
    give the two recurrences. *)
Definition moment_primitive (k : nat) : expr :=
  Mul (Pow (Sym Sym_r) (S k)) gauss.

Definition wallis_primitive (k : nat) : expr :=
  Mul (Neg (Cos (Sym (Sym_phi 0)))) (Pow (Sin (Sym (Sym_phi 0))) (S k)).

(** The product over the angles [phi_i], [i] in [l], of
    [sin(phi_i)^(e i)], and the product of its integrals. *)
Definition angular_product (e : nat -> nat) (l : list nat) (rho : env) : R :=
  fold_right (fun i acc => (sin (rho (Sym_phi i)) ^ e i * acc)%R) 1%R l.

Definition wallis_product (e : nat -> nat) (l : list nat) : R :=
  fold_right (fun i acc => (wallis (e i) * acc)%R) 1%R l.

(** The limit [(phi_i, 0, pi)]. *)
Definition half_turn (i : nat) : limit := (Sym_phi i, Fin (Int 0), Fin Pi).

(** ** Instances whose attributes were set by hand *)

(** The coordinates have a bounded number of angles in them. *)
Definition max_components (self : GaussianIntegral) : nat :=
  Z.to_nat (Z.max 2 (n self)).

(** A method that hands on the instance it was given. *)
Definition read_only {A} (c : M A) : Prop :=
  forall self : GaussianIntegral, snd (c self) = self.

Unset Implicit Arguments.

(** * Properties *)

(** ** The method monad *)

Lemma for_each_app {I St} (l1 l2 : list I) (body : I -> St -> M St)
  (s : St) (self : GaussianIntegral) :
  for_each (l1 ++ l2) body s self =
  (s' <- for_each l1 body s ;; for_each l2 body s') self.
Proof.
  revert s self. induction l1 as [|i l1 IH]; intros s self; simpl.
  - reflexivity.
  - unfold bind in *. destruct (body i s self) as [[e|s'] self'].
    + reflexivity.
    + apply IH.
Qed.

(** ** Python sequences *)

Lemma py_index_nonneg (len k : nat) :
  k < len -> py_index len (Z.of_nat k) = Some k.
Proof.
  intros H. unfold py_index.
  replace ((0 <=? Z.of_nat k)%Z) with true by (symmetry; apply Z.leb_le; lia).
  replace ((Z.of_nat k <? Z.of_nat len)%Z) with true
    by (symmetry; apply Z.ltb_lt; lia).
  simpl. now rewrite Nat2Z.id.
Qed.

Lemma py_index_minus_one (len : nat) :
  0 < len -> py_index len (-1) = Some (pred len).
Proof.
  intros H. unfold py_index. simpl.
  replace ((- Z.of_nat len <=? -1)%Z) with true
    by (symmetry; apply Z.leb_le; lia).
  simpl. f_equal. lia.
Qed.

Lemma getitem_nonneg {A} (l : list A) (k : nat) (d : A)
  (self : GaussianIntegral) :
  k < length l -> getitem l (Z.of_nat k) self = (inr (nth k l d), self).
Proof.
  intros H. unfold getitem. rewrite (py_index_nonneg _ _ H).
  rewrite (nth_error_nth' l d H). reflexivity.
Qed.

Lemma getitem_minus_one {A} (l : list A) (d : A) (self : GaussianIntegral) :
  l <> [] -> getitem l (-1) self = (inr (last l d), self).
Proof.
  intros H. unfold getitem.
  assert (Hlen : 0 < length l) by (destruct l; [congruence | simpl; lia]).
  rewrite (py_index_minus_one _ Hlen).
  destruct (exists_last H) as (l' & x & ->).
  rewrite length_app, last_last. simpl.
  replace (pred (length l' + 1)) with (length l') by lia.
  rewrite nth_error_app2, Nat.sub_diag by lia. reflexivity.
Qed.

Lemma setitem_nonneg {A} (l : list A) (k : nat) (v : A)
  (self : GaussianIntegral) :
  k < length l ->
  setitem l (Z.of_nat k) v self = (inr (list_set l k v), self).
Proof.
  intros H. unfold setitem. now rewrite (py_index_nonneg _ _ H).
Qed.

Lemma nth_last {A} (l : list A) (d : A) :
  nth (pred (length l)) l d = last l d.
Proof.
  destruct l as [|x l]; [reflexivity|].
  assert (H : x :: l <> []) by congruence.
  destruct (exists_last H) as (l' & y & ->).
  rewrite length_app, last_last. simpl.
  replace (pred (length l' + 1)) with (length l') by lia.
  rewrite app_nth2, Nat.sub_diag by lia. reflexivity.
Qed.

Lemma list_set_last {A} (l : list A) (v : A) :
  l <> [] -> list_set l (pred (length l)) v = removelast l ++ [v].
Proof.
  intros H. destruct (exists_last H) as (l' & y & ->).
  rewrite length_app, removelast_last. simpl.
  replace (pred (length l' + 1)) with (length l') by lia.
  clear H. induction l' as [|x l' IH]; simpl; [reflexivity|].
  now rewrite IH.
Qed.

(** ** The parametrization *)

Lemma length_split_last (xs : list expr) (p : symbol) :
  xs <> [] -> length (split_last xs p) = S (length xs).
Proof.
  intros H. unfold split_last.
  destruct (exists_last H) as (l' & y & ->).
  rewrite removelast_last, !length_app. simpl. lia.
Qed.

Lemma coords_length (m : nat) : length (coords m) = S (S m).
Proof.
  induction m as [|m IH]; [reflexivity|].
  simpl. rewrite length_split_last, IH; [reflexivity|].
  intros E. rewrite E in IH. discriminate.
Qed.

Lemma coords_nonempty (m : nat) : coords m <> [].
Proof.
  intros E. pose proof (coords_length m) as H. rewrite E in H. discriminate.
Qed.

Lemma spec_parametrization_coords (dim : Z) :
  spec_parametrization dim = coords (Z.to_nat (dim - 2)).
Proof.
  unfold spec_parametrization. generalize (Z.to_nat (dim - 2)) as m.
  induction m as [|m IH]; [reflexivity|].
  rewrite seq_S, fold_left_app, IH. reflexivity.
Qed.

Lemma nth_symbols_phi0_upto (a k : nat) (d : symbol) :
  k < a -> nth k (symbols_phi0_upto a) d = Sym_phi k.
Proof.
  intros H. unfold symbols_phi0_upto.
  rewrite (nth_indep _ d (Sym_phi 0)) by now rewrite length_map, length_seq.
  rewrite (map_nth Sym_phi (seq 0 a) 0 k), seq_nth by exact H.
  reflexivity.
Qed.

Lemma length_symbols_phi0_upto (a : nat) :
  length (symbols_phi0_upto a) = a.
Proof. unfold symbols_phi0_upto. now rewrite length_map, length_seq. Qed.

Lemma instance_phis_length (dim : Z) :
  length (phis (instance dim)) = S (Z.to_nat (dim - 2)).
Proof. apply length_symbols_phi0_upto. Qed.

(** One iteration of the loop, at index [S k], on the coordinates written
    by the [k] iterations before it. *)
Lemma split_coordinate_run (dim : Z) (k : nat) :
  S k < length (phis (instance dim)) ->
  split_coordinate (Z.of_nat (S k)) (coords k) (instance dim) =
  (inr (coords (S k)), instance dim).
Proof.
  intros Hk. unfold split_coordinate, bind, attr, ret.
  assert (Hlen : S k < length (coords k)) by (rewrite coords_length; lia).
  rewrite (getitem_nonneg (coords k) (S k) (Int 0) _ Hlen).
  rewrite (getitem_nonneg _ _ Sym_r _ Hk).
  rewrite (setitem_nonneg (coords k) _ _ _ Hlen).
  rewrite (getitem_nonneg _ _ Sym_r _ Hk).
  assert (E1 : nth (S k) (coords k) (Int 0) = last (coords k) (Int 0))
    by (rewrite <- nth_last, coords_length; reflexivity).
  assert (E2 : forall v, list_set (coords k) (S k) v
                         = removelast (coords k) ++ [v]).
  { intros v. rewrite <- list_set_last by apply coords_nonempty.
    now rewrite coords_length. }
  rewrite E1, E2. simpl phis. rewrite nth_symbols_phi0_upto
    by (rewrite instance_phis_length in Hk; exact Hk).
  rewrite <- app_assoc. reflexivity.
Qed.

Lemma range_from_one (k : nat) :
  map (fun j => (1 + Z.of_nat j)%Z) (seq 0 k) = map Z.of_nat (seq 1 k).
Proof.
  rewrite <- seq_shift, map_map. apply map_ext. intros j. lia.
Qed.

Lemma loop_run (dim : Z) (k : nat) :
  k < length (phis (instance dim)) ->
  for_each (map Z.of_nat (seq 1 k)) split_coordinate planar (instance dim) =
  (inr (coords k), instance dim).
Proof.
  induction k as [|k IH]; intros Hk; [reflexivity|].
  rewrite seq_S, map_app, for_each_app. unfold bind at 1.
  rewrite IH by lia.
  change (map Z.of_nat [1 + k]) with [Z.of_nat (S k)].
  cbn [for_each]. unfold bind.
  rewrite split_coordinate_run by exact Hk. reflexivity.
Qed.

Lemma transpose_column (xs : list expr) :
  xs <> [] -> transpose (Matrix_of_list xs) = [xs].
Proof.
  destruct xs as [|x xs]; [congruence|]. intros _.
  unfold transpose, Matrix_of_list. simpl. f_equal. f_equal.
  rewrite map_map. simpl. apply map_id.
Qed.

Lemma _cartesian_to_spherical_run (dim : Z) :
  _cartesian_to_spherical (instance dim) =
  (inr [coords (Z.to_nat (dim - 2))], instance dim).
Proof.
  unfold _cartesian_to_spherical, bind, attr.
  change 0%Z with (Z.of_nat 0).
  rewrite !(getitem_nonneg _ _ Sym_r) by (rewrite instance_phis_length; lia).
  simpl r. simpl n. unfold range.
  replace (dim - 1 - 1)%Z with (dim - 2)%Z by lia.
  rewrite range_from_one.
  change [Mul (Sym Sym_r) (Cos (Sym (nth 0 (phis (instance dim)) Sym_r)));
          Mul (Sym Sym_r) (Sin (Sym (nth 0 (phis (instance dim)) Sym_r)))]
    with planar.
  rewrite loop_run by (rewrite instance_phis_length; lia).
  unfold ret. rewrite transpose_column by apply coords_nonempty.
  reflexivity.
Qed.

(** ** Construction *)

Lemma __init___ok (dim : Z) :
  (1 <= dim)%Z -> __init__ dim = inr (instance dim).
Proof.
  intros H. unfold __init__, instance.
  destruct (Z.ltb_spec dim 1); [lia|].
  destruct (Z.eqb_spec dim 1) as [->|Hne]; [reflexivity|].
  replace (Z.to_nat (dim - 1)) with (S (Z.to_nat (dim - 2))) by lia.
  reflexivity.
Qed.

Lemma __init___error (dim : Z) :
  (dim < 1)%Z -> __init__ dim = inl (ValueError "n must be at least 1.").
Proof.
  intros H. unfold __init__. destruct (Z.ltb_spec dim 1); [reflexivity|lia].
Qed.

(** ** The Jacobian and its determinant *)

Lemma jacobian_run (dim : Z) :
  jacobian (instance dim) =
  (inr (jacobian_entries (Z.to_nat (dim - 2))), instance dim).
Proof.
  unfold jacobian, bind, attr.
  rewrite _cartesian_to_spherical_run.
  unfold lift, Matrix_jacobian. simpl length. simpl orb.
  simpl concat. rewrite app_nil_r. reflexivity.
Qed.

Lemma jacobian_entries_length (m : nat) :
  length (jacobian_entries m) = S (S m).
Proof. unfold jacobian_entries. now rewrite length_map, coords_length. Qed.

Lemma jacobian_entries_row_length (m : nat) (row : list expr) :
  In row (jacobian_entries m) -> length row = S (S m).
Proof.
  unfold jacobian_entries. intros H.
  apply in_map_iff in H as (f & <- & _).
  rewrite length_map. unfold variables. cbn [length].
  now rewrite length_symbols_phi0_upto.
Qed.

Lemma Matrix_det_jacobian (m : nat) :
  Matrix_det (jacobian_entries m) =
  inr (det_expr (S (S m)) (entry (jacobian_entries m))).
Proof.
  unfold Matrix_det.
  replace (forallb _ _) with true.
  - now rewrite jacobian_entries_length.
  - symmetry. apply forallb_forall. intros row H.
    apply Nat.eqb_eq.
    now rewrite (jacobian_entries_row_length _ _ H), jacobian_entries_length.
Qed.

Lemma jacobian_det_run (simplify : expr -> expr) (dim : Z) :
  jacobian_det simplify (instance dim) =
  (inr (simplify (det_expr (components dim)
                    (entry (jacobian_entries (Z.to_nat (dim - 2)))))),
   instance dim).
Proof.
  unfold jacobian_det, bind. rewrite jacobian_run.
  unfold lift. rewrite Matrix_det_jacobian. reflexivity.
Qed.

(** ** The limits of integration *)

Lemma symbols_phi0_upto_S (m : nat) :
  symbols_phi0_upto (S m) = symbols_phi0_upto m ++ [Sym_phi m].
Proof. unfold symbols_phi0_upto. now rewrite seq_S, map_app. Qed.

Lemma append_limits_run (ps : list symbol) (acc : list limit)
  (self : GaussianIntegral) :
  for_each ps
    (fun phi limits_of_int =>
       ret (limits_of_int ++ [(phi, Fin (Int 0), Fin Pi)])) acc self =
  (inr (acc ++ map (fun phi => (phi, Fin (Int 0), Fin Pi)) ps), self).
Proof.
  revert acc. induction ps as [|p ps IH]; intros acc; simpl.
  - now rewrite app_nil_r.
  - unfold bind, ret at 1. rewrite IH, <- app_assoc. reflexivity.
Qed.

Lemma doit_run (simplify : expr -> expr) (dim : Z) :
  doit simplify (instance dim) =
  (inr (post_process dim
          (integrate
             (integrand
                (simplify
                   (det_expr (components dim)
                      (entry (jacobian_entries (Z.to_nat (dim - 2)))))))
             (limits (Z.to_nat (dim - 2))))),
   instance dim).
Proof.
  unfold doit, bind, attr.
  change (phis (instance dim))
    with (symbols_phi0_upto (S (Z.to_nat (dim - 2)))).
  change (r (instance dim)) with Sym_r.
  rewrite (getitem_minus_one _ Sym_r)
    by (rewrite symbols_phi0_upto_S; now destruct (symbols_phi0_upto _)).
  cbv beta iota.
  change (phis (instance dim))
    with (symbols_phi0_upto (S (Z.to_nat (dim - 2)))).
  rewrite symbols_phi0_upto_S, last_last, removelast_last.
  rewrite append_limits_run, jacobian_det_run.
  unfold limits, integrand. simpl app.
  change (n (instance dim)) with dim. change (r (instance dim)) with Sym_r.
  unfold post_process. destruct (dim =? 1)%Z; reflexivity.
Qed.

(** ** Claims about the orchestration *)

(** C4: for every n >= 1 the parametrization is the sequence the
    specification describes (start from the planar pair, then for i = 1 ..
    n-2 replace the last coordinate by its cosine branch and append its sine
    branch); it has n components for n >= 2 and 2 components for n = 1. *)
Theorem parametrization_as_specified (dim : Z) :
  (1 <= dim)%Z ->
  exists self,
    __init__ dim = inr self /\
    _cartesian_to_spherical self = (inr [spec_parametrization dim], self) /\
    length (spec_parametrization dim)
    = (if (dim =? 1)%Z then 2 else Z.to_nat dim).
Proof.
  intros H. exists (instance dim). split; [now apply __init___ok|]. split.
  - rewrite spec_parametrization_coords. apply _cartesian_to_spherical_run.
  - rewrite spec_parametrization_coords, coords_length.
    destruct (Z.eqb_spec dim 1) as [->|Hne]; [reflexivity|lia].
Qed.

Lemma parametrization_as_specified_witness :
  exists self,
    __init__ 3 = inr self /\
    _cartesian_to_spherical self = (inr [spec_parametrization 3], self) /\
    length (spec_parametrization 3) = 3.
Proof. apply (parametrization_as_specified 3). lia. Defined.

Lemma NoDup_variables (m : nat) : NoDup (variables m).
Proof.
  unfold variables, symbols_phi0_upto. constructor.
  - intros H. apply in_map_iff in H as (i & Hi & _). discriminate.
  - apply Finite.Injective_map_NoDup; [|apply seq_NoDup].
    intros i j [= E]. exact E.
Qed.

(** C6: for every n >= 1, [doit] passes to [integrate] the integrand
    exp(-r^2) times the simplified Jacobian determinant and one limit per
    variable, in this order: r over [0, oo), the last angular symbol over
    [0, 2 pi], then the other angular symbols, first to second-last, over
    [0, pi].  The last angular symbol is phi_{n-2} (phi0 when n = 1) and
    the others are phi_0 .. phi_{n-3} (none when n <= 2). *)
Theorem doit_limits (simplify : expr -> expr) (dim : Z) :
  (1 <= dim)%Z ->
  exists self d ls,
    __init__ dim = inr self /\
    jacobian_det simplify self = (inr d, self) /\
    doit simplify self
    = (inr (post_process dim
              (integrate (Mul (Exp (Neg (Pow (Sym (r self)) 2))) d) ls)),
       self) /\
    ls = (r self, Fin (Int 0), Oo)
         :: (last (phis self) Sym_r, Fin (Int 0), Fin (Mul (Int 2) Pi))
         :: map (fun phi => (phi, Fin (Int 0), Fin Pi))
              (removelast (phis self)) /\
    Permutation (map (fun l : limit => fst (fst l)) ls)
      (r self :: phis self) /\
    NoDup (r self :: phis self) /\
    last (phis self) Sym_r = Sym_phi (Z.to_nat (dim - 2)) /\
    removelast (phis self) = map Sym_phi (seq 0 (Z.to_nat (dim - 2))).
Proof.
  intros H. set (m := Z.to_nat (dim - 2)).
  exists (instance dim),
    (simplify (det_expr (components dim) (entry (jacobian_entries m)))),
    (limits m).
  assert (Hlast : last (phis (instance dim)) Sym_r = Sym_phi m).
  { unfold instance. cbn [phis]. fold m.
    now rewrite symbols_phi0_upto_S, last_last. }
  assert (Hinit : removelast (phis (instance dim)) = symbols_phi0_upto m).
  { unfold instance. cbn [phis]. fold m.
    now rewrite symbols_phi0_upto_S, removelast_last. }
  split; [now apply __init___ok|].
  split; [apply jacobian_det_run|].
  split; [apply doit_run|].
  split; [now rewrite Hlast, Hinit|].
  split.
  { unfold limits, instance. cbn [phis r map fst]. fold m.
    rewrite map_map. cbn [fst]. rewrite map_id, symbols_phi0_upto_S.
    constructor. apply Permutation_cons_append. }
  split; [apply (NoDup_variables m)|].
  split; [exact Hlast | exact Hinit].
Qed.

Lemma doit_limits_witness :
  exists self d ls,
    __init__ 4 = inr self /\
    jacobian_det (fun e => e) self = (inr d, self) /\
    doit (fun e => e) self
    = (inr (post_process 4
              (integrate (Mul (Exp (Neg (Pow (Sym (r self)) 2))) d) ls)),
       self) /\
    ls = (r self, Fin (Int 0), Oo)
         :: (last (phis self) Sym_r, Fin (Int 0), Fin (Mul (Int 2) Pi))
         :: map (fun phi => (phi, Fin (Int 0), Fin Pi))
              (removelast (phis self)) /\
    Permutation (map (fun l : limit => fst (fst l)) ls)
      (r self :: phis self) /\
    NoDup (r self :: phis self) /\
    last (phis self) Sym_r = Sym_phi 2 /\
    removelast (phis self) = [Sym_phi 0; Sym_phi 1].
Proof. apply (doit_limits (fun e => e) 4). lia. Defined.

Lemma ask_run (simplify : expr -> expr) (q : query) (dim : Z) :
  exists a, ask simplify q (instance dim) = (inr a, instance dim).
Proof.
  destruct q; unfold ask, map_result, bind.
  - rewrite jacobian_run. eexists. reflexivity.
  - rewrite jacobian_det_run. eexists. reflexivity.
  - rewrite doit_run. eexists. reflexivity.
Qed.

Lemma ask_all_keeps_instance (simplify : expr -> expr) (qs : list query)
  (dim : Z) :
  snd (ask_all simplify qs (instance dim)) = instance dim.
Proof.
  induction qs as [|q qs IH]; [reflexivity|].
  cbn [ask_all]. destruct (ask_run simplify q dim) as [a ->].
  destruct (ask_all simplify qs (instance dim)) as [rest self''].
  exact IH.
Qed.

(** C7: the constructor raises the invalid-dimension error exactly when
    n < 1, so that no method can run on such an n; for n >= 1 it returns an
    instance, and no method raises on it. *)
Theorem construction_errors (simplify : expr -> expr) (dim : Z) :
  ((exists e, __init__ dim = inl e) <-> (dim < 1)%Z) /\
  ((dim < 1)%Z ->
   __init__ dim = inl (ValueError "n must be at least 1.") /\
   forall (A : Type) (op : M A),
     construct_then dim op = inl (ValueError "n must be at least 1.")) /\
  ((1 <= dim)%Z ->
   exists self,
     __init__ dim = inr self /\
     (exists x, _cartesian_to_spherical self = (inr x, self)) /\
     (exists j, jacobian self = (inr j, self)) /\
     (exists d, jacobian_det simplify self = (inr d, self)) /\
     (exists v, doit simplify self = (inr v, self))).
Proof.
  split; [|split].
  - split.
    + intros [e He]. destruct (Z.lt_ge_cases dim 1) as [Hlt|Hge]; [exact Hlt|].
      rewrite (__init___ok dim Hge) in He. discriminate.
    + intros Hlt. eexists. apply (__init___error dim Hlt).
  - intros Hlt. split; [apply (__init___error dim Hlt)|].
    intros A op. unfold construct_then.
    now rewrite (__init___error dim Hlt).
  - intros Hge. exists (instance dim).
    split; [apply (__init___ok dim Hge)|].
    split; [eexists; apply _cartesian_to_spherical_run|].
    split; [eexists; apply jacobian_run|].
    split; [eexists; apply jacobian_det_run|].
    eexists; apply doit_run.
Qed.

(** C8: for every n >= 1 the attributes set by the constructor are never
    changed: after any sequence of calls to jacobian, jacobian_det and doit
    the instance is the one that was constructed, with n-1 angular symbols
    for n >= 2 and one for n = 1, and doit returns the same result before
    and after such a sequence, in particular when it is called twice. *)
Theorem instance_never_changes (simplify : expr -> expr) (dim : Z) :
  (1 <= dim)%Z ->
  exists self,
    __init__ dim = inr self /\
    n self = dim /\
    r self = Sym_r /\
    length (phis self) = (if (dim =? 1)%Z then 1 else Z.to_nat (dim - 1)) /\
    (dim = 1%Z -> phis self = [Sym_phi 0]) /\
    (forall qs, snd (ask_all simplify qs self) = self) /\
    (forall qs,
        fst (doit simplify (snd (ask_all simplify qs self)))
        = fst (doit simplify self)) /\
    exists v,
      doit simplify self = (inr v, self) /\
      (v1 <- doit simplify ;; v2 <- doit simplify ;; ret (v1, v2)) self
      = (inr (v, v), self).
Proof.
  intros H. exists (instance dim).
  split; [apply (__init___ok dim H)|].
  split; [reflexivity|]. split; [reflexivity|].
  split.
  { rewrite instance_phis_length.
    destruct (Z.eqb_spec dim 1) as [->|Hne]; [reflexivity|lia]. }
  split; [now intros ->|].
  split; [intros qs; apply ask_all_keeps_instance|].
  split; [intros qs; now rewrite ask_all_keeps_instance|].
  eexists. split; [apply doit_run|].
  unfold bind. rewrite !doit_run. reflexivity.
Qed.

Lemma instance_never_changes_witness :
  exists self,
    __init__ 3 = inr self /\
    n self = 3%Z /\
    r self = Sym_r /\
    length (phis self) = 2 /\
    (3%Z = 1%Z -> phis self = [Sym_phi 0]) /\
    (forall qs, snd (ask_all (fun e => e) qs self) = self) /\
    (forall qs,
        fst (doit (fun e => e) (snd (ask_all (fun e => e) qs self)))
        = fst (doit (fun e => e) self)) /\
    exists v,
      doit (fun e => e) self = (inr v, self) /\
      (v1 <- doit (fun e => e) ;; v2 <- doit (fun e => e) ;; ret (v1, v2))
        self
      = (inr (v, v), self).
Proof. apply (instance_never_changes (fun e => e) 3). lia. Defined.

(** The Python range from [a], as a list of positions. *)
Lemma range_from (a : nat) (b : Z) :
  range (Z.of_nat a) b = map Z.of_nat (seq a (Z.to_nat (b - Z.of_nat a))).
Proof.
  unfold range. generalize (Z.to_nat (b - Z.of_nat a)). intros len.
  replace (seq a len) with (seq (a + 0) len) by (now rewrite Nat.add_0_r).
  generalize 0 as s.
  induction len as [|len IH]; intros s; [reflexivity|].
  cbn [seq map]. f_equal; [lia|].
  rewrite IH, Nat.add_succ_r. reflexivity.
Qed.

(** The iterations after the first [k], on the coordinates these have
    written. *)
Lemma loop_run_from (dim : Z) (k j : nat) :
  k + j < length (phis (instance dim)) ->
  for_each (map Z.of_nat (seq (S k) j)) split_coordinate (coords k)
    (instance dim)
  = (inr (coords (k + j)), instance dim).
Proof.
  intros H. pose proof (loop_run dim (k + j) H) as L.
  rewrite seq_app, map_app, for_each_app in L. unfold bind in L at 1.
  rewrite loop_run in L by lia. exact L.
Qed.

(** C9: for every n >= 1 every sequence access of the four methods is in
    bounds, so that each of them returns: phis is not empty, so phis[0] and
    phis[-1] exist; at the start of iteration i of the loop of the
    parametrization, from which the remaining iterations give the method's
    result, i is a valid index of the coordinate list and of phis; and for
    n = 1 it is phi0 that gets the limit [0, 2 pi]. *)
Theorem accesses_in_bounds (simplify : expr -> expr) (dim : Z) :
  (1 <= dim)%Z ->
  exists self,
    __init__ dim = inr self /\
    phis self <> [] /\
    (exists p, getitem (phis self) 0 self = (inr p, self)) /\
    (exists p, getitem (phis self) (-1) self = (inr p, self)) /\
    (forall i,
        In i (range 1 (n self - 1)) ->
        exists x_coords,
          for_each (range 1 i) split_coordinate planar self
          = (inr x_coords, self) /\
          (0 <= i < Z.of_nat (length x_coords))%Z /\
          (0 <= i < Z.of_nat (length (phis self)))%Z /\
          _cartesian_to_spherical self
          = (xs <- for_each (range i (n self - 1)) split_coordinate
                     x_coords ;;
             ret (transpose (Matrix_of_list xs))) self) /\
    (exists xs,
       for_each (range 1 (n self - 1)) split_coordinate planar self
       = (inr xs, self) /\
       _cartesian_to_spherical self = (inr [xs], self)) /\
    (exists j, jacobian self = (inr j, self)) /\
    (exists d, jacobian_det simplify self = (inr d, self)) /\
    (exists v, doit simplify self = (inr v, self)) /\
    (dim = 1%Z ->
     exists f,
       doit simplify self
       = (inr (sqrt_of
                 (integrate f
                    [(Sym_r, Fin (Int 0), Oo);
                     (Sym_phi 0, Fin (Int 0), Fin (Mul (Int 2) Pi))])),
          self)).
Proof.
  intros H. exists (instance dim).
  assert (Hne : phis (instance dim) <> []).
  { intros E. pose proof (instance_phis_length dim) as L.
    rewrite E in L. discriminate. }
  split; [apply (__init___ok dim H)|].
  split; [exact Hne|].
  split.
  { eexists. change 0%Z with (Z.of_nat 0).
    apply (getitem_nonneg _ _ Sym_r).
    rewrite instance_phis_length. lia. }
  split; [eexists; apply (getitem_minus_one _ Sym_r _ Hne)|].
  split.
  { intros i Hi. unfold range in Hi.
    apply in_map_iff in Hi as (k & <- & Hk). apply in_seq in Hk.
    change (n (instance dim)) with dim in Hk |- *.
    exists (coords k). split; [|split; [|split]].
    - unfold range.
      replace (Z.to_nat (1 + Z.of_nat k - 1)) with k by lia.
      rewrite range_from_one. apply loop_run.
      rewrite instance_phis_length. lia.
    - rewrite coords_length. lia.
    - rewrite instance_phis_length. lia.
    - rewrite _cartesian_to_spherical_run.
      replace (1 + Z.of_nat k)%Z with (Z.of_nat (S k)) by lia.
      rewrite range_from. unfold bind.
      rewrite loop_run_from by (rewrite instance_phis_length; lia).
      unfold ret. rewrite transpose_column by apply coords_nonempty.
      replace (k + Z.to_nat (dim - 1 - Z.of_nat (S k)))
        with (Z.to_nat (dim - 2)) by lia.
      reflexivity. }
  split.
  { exists (coords (Z.to_nat (dim - 2))).
    split; [|apply _cartesian_to_spherical_run].
    change (n (instance dim)) with dim. unfold range.
    replace (dim - 1 - 1)%Z with (dim - 2)%Z by lia.
    rewrite range_from_one. apply loop_run.
    rewrite instance_phis_length. lia. }
  split; [eexists; apply jacobian_run|].
  split; [eexists; apply jacobian_det_run|].
  split; [eexists; apply doit_run|].
  intros ->. eexists. rewrite doit_run. reflexivity.
Qed.

Lemma accesses_in_bounds_witness :
  exists self,
    __init__ 4 = inr self /\
    phis self <> [] /\
    (exists p, getitem (phis self) 0 self = (inr p, self)) /\
    (exists p, getitem (phis self) (-1) self = (inr p, self)) /\
    (forall i,
        In i (range 1 (n self - 1)) ->
        exists x_coords,
          for_each (range 1 i) split_coordinate planar self
          = (inr x_coords, self) /\
          (0 <= i < Z.of_nat (length x_coords))%Z /\
          (0 <= i < Z.of_nat (length (phis self)))%Z /\
          _cartesian_to_spherical self
          = (xs <- for_each (range i (n self - 1)) split_coordinate
                     x_coords ;;
             ret (transpose (Matrix_of_list xs))) self) /\
    (exists xs,
       for_each (range 1 (n self - 1)) split_coordinate planar self
       = (inr xs, self) /\
       _cartesian_to_spherical self = (inr [xs], self)) /\
    (exists j, jacobian self = (inr j, self)) /\
    (exists d, jacobian_det (fun e => e) self = (inr d, self)) /\
    (exists v, doit (fun e => e) self = (inr v, self)) /\
    (4%Z = 1%Z ->
     exists f,
       doit (fun e => e) self
       = (inr (sqrt_of
                 (integrate f
                    [(Sym_r, Fin (Int 0), Oo);
                     (Sym_phi 0, Fin (Int 0), Fin (Mul (Int 2) Pi))])),
          self)).
Proof. apply (accesses_in_bounds (fun e => e) 4). lia. Defined.

(** ** Expressions and their derivatives *)

Local Open Scope R_scope.

Lemma symbol_eqb_eq (x y : symbol) : symbol_eqb x y = true <-> x = y.
Proof.
  destruct x as [|i], y as [|j]; simpl; split; try congruence; try easy.
  - intros H. apply Nat.eqb_eq in H. now subst.
  - intros [= ->]. apply Nat.eqb_refl.
Qed.

Lemma symbol_eqb_refl (x : symbol) : symbol_eqb x x = true.
Proof. now apply symbol_eqb_eq. Qed.

Lemma symbol_eqb_neq (x y : symbol) : x <> y -> symbol_eqb x y = false.
Proof.
  intros H. destruct (symbol_eqb x y) eqn:E; [|reflexivity].
  apply symbol_eqb_eq in E. contradiction.
Qed.

Lemma upd_same (rho : env) (x : symbol) (t : R) : upd rho x t x = t.
Proof. unfold upd. now rewrite symbol_eqb_refl. Qed.

Lemma upd_other (rho : env) (x y : symbol) (t : R) :
  y <> x -> upd rho x t y = rho y.
Proof. intros H. unfold upd. now rewrite symbol_eqb_neq. Qed.

(** [diff] computes the partial derivative. *)
Lemma diff_sound (e : expr) (x : symbol) (rho : env) (t0 : R) :
  derivable_pt_lim (fun t => eval (upd rho x t) e) t0
    (eval (upd rho x t0) (diff e x)).
Proof.
  induction e; simpl.
  - unfold upd. destruct (symbol_eqb s x); simpl.
    + apply derivable_pt_lim_id.
    + apply derivable_pt_lim_const.
  - apply derivable_pt_lim_const.
  - apply derivable_pt_lim_const.
  - apply (derivable_pt_lim_plus _ _ _ _ _ IHe1 IHe2).
  - apply (derivable_pt_lim_mult _ _ _ _ _ IHe1 IHe2).
  - destruct k as [|k'].
    + simpl. apply derivable_pt_lim_const.
    + cbn [eval].
      replace (IZR (Z.of_nat (S k')) * eval (upd rho x t0) e ^ k'
               * eval (upd rho x t0) (diff e x))
        with (INR (S k') * eval (upd rho x t0) e ^ pred (S k')
              * eval (upd rho x t0) (diff e x))
        by (now rewrite INR_IZR_INZ).
      apply (derivable_pt_lim_comp _ (fun y => y ^ S k') _ _ _ IHe).
      apply derivable_pt_lim_pow.
  - replace (-1 * sin (eval (upd rho x t0) e) * eval (upd rho x t0) (diff e x))
      with (- sin (eval (upd rho x t0) e) * eval (upd rho x t0) (diff e x))
      by ring.
    apply (derivable_pt_lim_comp _ cos _ _ _ IHe).
    apply derivable_pt_lim_cos.
  - apply (derivable_pt_lim_comp _ sin _ _ _ IHe).
    apply derivable_pt_lim_sin.
  - apply (derivable_pt_lim_comp _ exp _ _ _ IHe).
    apply derivable_pt_lim_exp.
Qed.

(** The derivative with respect to a symbol that does not occur is zero. *)
Lemma diff_fresh (e : expr) (x : symbol) (rho : env) :
  mentions x e = false -> eval rho (diff e x) = 0.
Proof.
  induction e; simpl; intros H; try reflexivity.
  - now rewrite H.
  - apply orb_false_elim in H as [H1 H2]. rewrite IHe1, IHe2 by assumption.
    ring.
  - apply orb_false_elim in H as [H1 H2]. rewrite IHe1, IHe2 by assumption.
    ring.
  - destruct k; simpl; [reflexivity|]. rewrite IHe by assumption. ring.
  - rewrite IHe by assumption. ring.
  - rewrite IHe by assumption. ring.
  - rewrite IHe by assumption. ring.
Qed.

(** ** The shape of the coordinates *)

(** The coordinates after [m] splits are a prefix of [m + 1] closed
    coordinates followed by the open one; the next split keeps the prefix. *)
Lemma coords_snoc (m : nat) :
  exists prefix,
    coords m = prefix ++ [last (coords m) (Int 0)] /\
    length prefix = S m /\
    coords (S m)
    = prefix ++ [Mul (last (coords m) (Int 0)) (Cos (Sym (Sym_phi (S m))));
                 Mul (last (coords m) (Int 0)) (Sin (Sym (Sym_phi (S m))))].
Proof.
  destruct (exists_last (coords_nonempty m)) as (prefix & y & E).
  exists prefix. cbn [coords]. unfold split_last.
  pose proof (coords_length m) as L.
  rewrite E in *. rewrite last_last, removelast_last.
  rewrite length_app in L. simpl in L.
  repeat split. lia.
Qed.

Lemma last_coords_S (m : nat) :
  last (coords (S m)) (Int 0)
  = Mul (last (coords m) (Int 0)) (Sin (Sym (Sym_phi (S m)))).
Proof.
  destruct (coords_snoc m) as (prefix & _ & _ & ->).
  change [?a; ?b] with ([a] ++ [b]). now rewrite app_assoc, last_last.
Qed.

Lemma sum_squares_app (rho : env) (xs ys : list expr) :
  sum_squares rho (xs ++ ys) = sum_squares rho xs + sum_squares rho ys.
Proof.
  induction xs as [|x xs IH]; simpl; [ring|].
  fold (sum_squares rho (xs ++ ys)) (sum_squares rho xs).
  rewrite IH. ring.
Qed.

Lemma sum_squares_coords (rho : env) (m : nat) :
  sum_squares rho (coords m) = rho Sym_r ^ 2.
Proof.
  induction m as [|m IH].
  - simpl. pose proof (sin2_cos2 (rho (Sym_phi 0))) as H.
    unfold Rsqr in H. nra.
  - destruct (coords_snoc m) as (prefix & E & _ & ->).
    rewrite E, sum_squares_app in IH. rewrite sum_squares_app.
    rewrite <- IH. f_equal. simpl.
    pose proof (sin2_cos2 (rho (Sym_phi (S m)))) as H.
    unfold Rsqr in H. nra.
Qed.

(** C10: for every n >= 1 the squares of the components of the
    parametrization sum to r^2, whatever the values of the symbols. *)
Theorem parametrization_on_sphere (dim : Z) :
  (1 <= dim)%Z ->
  exists self xs,
    __init__ dim = inr self /\
    _cartesian_to_spherical self = (inr [xs], self) /\
    forall rho : env, sum_squares rho xs = rho (r self) ^ 2.
Proof.
  intros H. exists (instance dim), (coords (Z.to_nat (dim - 2))).
  split; [apply (__init___ok dim H)|].
  split; [apply _cartesian_to_spherical_run|].
  intros rho. apply sum_squares_coords.
Qed.

Lemma parametrization_on_sphere_witness :
  exists self xs,
    __init__ 5 = inr self /\
    _cartesian_to_spherical self = (inr [xs], self) /\
    forall rho : env, sum_squares rho xs = rho (r self) ^ 2.
Proof. apply (parametrization_on_sphere 5). lia. Defined.

(** ** The entries of the Jacobian *)

Lemma nth_variables (m j : nat) :
  (j < S (S m))%nat -> nth j (variables m) Sym_r = var_at j.
Proof.
  intros H. destruct j as [|j]; [reflexivity|].
  unfold variables. cbn [nth var_at].
  apply nth_symbols_phi0_upto. lia.
Qed.

Lemma entry_jacobian_entries (m i j : nat) :
  (i < S (S m))%nat -> (j < S (S m))%nat ->
  entry (jacobian_entries m) i j
  = diff (nth i (coords m) (Int 0)) (var_at j).
Proof.
  intros Hi Hj. unfold entry, jacobian_entries.
  rewrite (nth_indep _ [] (map (diff (Int 0)) (variables m)))
    by (now rewrite length_map, coords_length).
  rewrite (map_nth (fun f => map (diff f) (variables m))).
  rewrite (nth_indep _ (Int 0) (diff (nth i (coords m) (Int 0)) Sym_r)).
  2:{ rewrite length_map. unfold variables. cbn [length].
      now rewrite length_symbols_phi0_upto. }
  rewrite (map_nth (diff (nth i (coords m) (Int 0)))).
  now rewrite nth_variables.
Qed.

(** C5: for every n >= 1, [jacobian] returns a matrix with one row per
    component of the parametrization and one column per variable of
    [r, phi0, ..., phi_{n-2}] ([r, phi0] for n = 1), so 2 x 2 for n = 1 and
    n x n for n >= 2; the entry in row i and column j is the partial
    derivative of component i with respect to variable j. *)
Theorem jacobian_partial_derivatives (dim : Z) :
  (1 <= dim)%Z ->
  exists self xs j size,
    __init__ dim = inr self /\
    _cartesian_to_spherical self = (inr [xs], self) /\
    jacobian self = (inr j, self) /\
    size = (if (dim =? 1)%Z then 2%nat else Z.to_nat dim) /\
    r self :: phis self = map var_at (seq 0 size) /\
    length xs = size /\
    length j = size /\
    (forall row, In row j -> length row = size) /\
    forall i k, (i < size)%nat -> (k < size)%nat ->
      forall (rho : env) (t0 : R),
        derivable_pt_lim
          (fun t => eval (upd rho (nth k (r self :: phis self) Sym_r) t)
                      (nth i xs (Int 0)))
          t0
          (eval (upd rho (nth k (r self :: phis self) Sym_r) t0)
             (entry j i k)).
Proof.
  intros H. set (m := Z.to_nat (dim - 2)).
  exists (instance dim), (coords m), (jacobian_entries m), (S (S m)).
  split; [apply (__init___ok dim H)|].
  split; [apply _cartesian_to_spherical_run|].
  split; [apply jacobian_run|].
  split; [destruct (Z.eqb_spec dim 1) as [->|Hne]; [reflexivity|lia]|].
  split.
  { unfold instance. cbn [r phis]. fold m.
    change (seq 0 (S (S m))) with (0%nat :: seq 1 (S m)).
    rewrite <- seq_shift. cbn [map var_at]. rewrite map_map.
    reflexivity. }
  split; [apply coords_length|].
  split; [apply jacobian_entries_length|].
  split; [apply jacobian_entries_row_length|].
  intros i k Hi Hk rho t0.
  change (r (instance dim) :: phis (instance dim)) with (variables m).
  rewrite nth_variables, entry_jacobian_entries by assumption.
  apply diff_sound.
Qed.

Lemma jacobian_partial_derivatives_witness :
  exists self xs j size,
    __init__ 3 = inr self /\
    _cartesian_to_spherical self = (inr [xs], self) /\
    jacobian self = (inr j, self) /\
    size = 3%nat /\
    r self :: phis self = map var_at (seq 0 size) /\
    length xs = size /\
    length j = size /\
    (forall row, In row j -> length row = size) /\
    forall i k, (i < size)%nat -> (k < size)%nat ->
      forall (rho : env) (t0 : R),
        derivable_pt_lim
          (fun t => eval (upd rho (nth k (r self :: phis self) Sym_r) t)
                      (nth i xs (Int 0)))
          t0
          (eval (upd rho (nth k (r self :: phis self) Sym_r) t0)
             (entry j i k)).
Proof. apply (jacobian_partial_derivatives 3). lia. Defined.

(** ** Determinants *)

Lemma sum_upto_ext (k : nat) (f g : nat -> R) :
  (forall i, (i < k)%nat -> f i = g i) ->
  sum_upto 0 Rplus k f = sum_upto 0 Rplus k g.
Proof.
  induction k as [|k IH]; intros H; simpl; [reflexivity|].
  rewrite IH, H by auto with arith. reflexivity.
Qed.

Lemma sum_upto_scale (c : R) (k : nat) (f g : nat -> R) :
  (forall i, (i < k)%nat -> f i = c * g i) ->
  sum_upto 0 Rplus k f = c * sum_upto 0 Rplus k g.
Proof.
  induction k as [|k IH]; intros H; simpl; [ring|].
  rewrite IH, H by auto with arith. ring.
Qed.

Lemma sum_upto_zero (k : nat) (f : nat -> R) :
  (forall i, (i < k)%nat -> f i = 0) -> sum_upto 0 Rplus k f = 0.
Proof.
  intros H. rewrite (sum_upto_scale 0 k f (fun _ => 0)); [ring|].
  intros i Hi. rewrite H by exact Hi. ring.
Qed.

Lemma sum_upto_last_two (k : nat) (f : nat -> R) :
  sum_upto 0 Rplus (S (S k)) f = sum_upto 0 Rplus k f + f k + f (S k).
Proof. reflexivity. Qed.

Lemma signed_scale (k : nat) (c x : R) :
  signed Ropp k (c * x) = c * signed Ropp k x.
Proof. unfold signed. destruct (Nat.even k); ring. Qed.

Lemma signed_even (k : nat) (x : R) : signed Ropp (k + k) x = x.
Proof.
  unfold signed. replace (k + k)%nat with (2 * k)%nat by lia.
  now rewrite Nat.even_mul.
Qed.

Lemma signed_odd (k : nat) (x : R) : signed Ropp (k + S k) x = - x.
Proof.
  unfold signed. replace (k + S k)%nat with (S (2 * k)) by lia.
  now rewrite Nat.even_succ, Nat.odd_mul.
Qed.

Lemma det_R_S (size : nat) (a : nat -> nat -> R) :
  det_R (S size) a
  = sum_upto 0 Rplus (S size)
      (fun i => signed Ropp (i + size)
                  (a i size * det_R size (skip_row i a))).
Proof. reflexivity. Qed.

Lemma det_expr_S (size : nat) (a : nat -> nat -> expr) :
  det_expr (S size) a
  = sum_upto (Int 0) Add (S size)
      (fun i => signed Neg (i + size)
                  (Mul (a i size) (det_expr size (skip_row i a)))).
Proof. reflexivity. Qed.

(** The determinant of size [size] reads the entries below [size] only. *)
Lemma det_R_ext (size : nat) :
  forall a b : nat -> nat -> R,
    (forall i j, (i < size)%nat -> (j < size)%nat -> a i j = b i j) ->
    det_R size a = det_R size b.
Proof.
  induction size as [|size IH]; intros a b H; [reflexivity|].
  rewrite !det_R_S. apply sum_upto_ext. intros i Hi.
  f_equal. rewrite (H i size) by lia. f_equal.
  apply IH. intros k j Hk Hj. unfold skip_row.
  destruct (k <? i)%nat; apply H; lia.
Qed.

(** Multiplying the last row by [c] multiplies the determinant by [c]. *)
Lemma det_R_scale_last_row (c : R) (size : nat) :
  forall a b : nat -> nat -> R,
    (forall i j, (i < size)%nat -> (j < S size)%nat -> a i j = b i j) ->
    (forall j, (j < S size)%nat -> a size j = c * b size j) ->
    det_R (S size) a = c * det_R (S size) b.
Proof.
  induction size as [|size IH]; intros a b Hrows Hlast.
  - unfold det_R. simpl. unfold signed. simpl.
    rewrite (Hlast 0%nat) by lia. ring.
  - rewrite (det_R_S (S size) a), (det_R_S (S size) b).
    apply sum_upto_scale. intros i Hi.
    rewrite <- signed_scale. f_equal.
    destruct (Nat.eq_dec i (S size)) as [->|Hne].
    + rewrite (Hlast (S size)) by lia.
      rewrite (det_R_ext (S size) (skip_row (S size) a)
                 (skip_row (S size) b)); [ring|].
      intros k j Hk Hj. unfold skip_row.
      destruct (Nat.ltb_spec k (S size)); [|lia]. apply Hrows; lia.
    + rewrite (Hrows i (S size)) by lia.
      rewrite (IH (skip_row i a) (skip_row i b)); [ring| |].
      * intros k j Hk Hj. unfold skip_row.
        destruct (k <? i)%nat; apply Hrows; lia.
      * intros j Hj. unfold skip_row.
        destruct (Nat.ltb_spec size i); [lia|]. apply Hlast; lia.
Qed.

Lemma eval_signed (rho : env) (k : nat) (e : expr) :
  eval rho (signed Neg k e) = signed Ropp k (eval rho e).
Proof. unfold signed. destruct (Nat.even k); simpl; ring. Qed.

Lemma eval_sum_upto (rho : env) (k : nat) (f : nat -> expr) :
  eval rho (sum_upto (Int 0) Add k f)
  = sum_upto 0 Rplus k (fun i => eval rho (f i)).
Proof. induction k as [|k IH]; simpl; [reflexivity|]. now rewrite IH. Qed.

(** The meaning of the symbolic determinant is the determinant of the
    meanings. *)
Lemma eval_det_expr (rho : env) (size : nat) :
  forall a : nat -> nat -> expr,
    eval rho (det_expr size a) = det_R size (fun i j => eval rho (a i j)).
Proof.
  induction size as [|size IH]; intros a; [reflexivity|].
  rewrite det_expr_S, det_R_S.
  rewrite eval_sum_upto. apply sum_upto_ext. intros i Hi.
  rewrite eval_signed. cbn [eval]. rewrite IH. f_equal. f_equal.
  apply det_R_ext. intros k j Hk Hj. unfold skip_row.
  now destruct (k <? i)%nat.
Qed.

(** ** The determinant of the Jacobian *)

Lemma eval_det_jacobian (rho : env) (m : nat) :
  eval rho (det_expr (S (S m)) (entry (jacobian_entries m)))
  = det_R (S (S m)) (jacobian_at rho m).
Proof.
  rewrite eval_det_expr. apply det_R_ext. intros i j Hi Hj.
  now rewrite entry_jacobian_entries.
Qed.

(** The coordinates after [m] splits mention r, phi0, ..., phi_m only. *)
Lemma coords_fresh (m k : nat) (e : expr) :
  (m < k)%nat -> In e (coords m) -> mentions (Sym_phi k) e = false.
Proof.
  revert e. induction m as [|m IH]; intros e Hk He.
  - assert (E : (0 =? k)%nat = false) by (apply Nat.eqb_neq; lia).
    simpl in He.
    destruct He as [<-|[<-|[]]]; cbn [mentions symbol_eqb]; now rewrite E.
  - assert (Hold : mentions (Sym_phi k) (last (coords m) (Int 0)) = false).
    { apply IH; [lia|].
      destruct (coords_snoc m) as (prefix & E & _).
      rewrite E at 2. apply in_or_app. right. now left. }
    assert (E : (S m =? k)%nat = false) by (apply Nat.eqb_neq; lia).
    destruct (coords_snoc m) as (prefix & Em & _ & ES).
    rewrite ES in He. apply in_app_or in He as [He|[<-|[<-|[]]]].
    + apply IH; [lia|]. rewrite Em. apply in_or_app. now left.
    + cbn [mentions symbol_eqb]. now rewrite Hold, E.
    + cbn [mentions symbol_eqb]. now rewrite Hold, E.
Qed.

Lemma var_at_not_next (m j : nat) :
  (j < S (S m))%nat -> symbol_eqb (Sym_phi (S m)) (var_at j) = false.
Proof.
  intros H. destruct j as [|j]; [reflexivity|].
  cbn [var_at symbol_eqb]. apply Nat.eqb_neq. lia.
Qed.

Section Recurrence.

Variables (rho : env) (m : nat).

Let old : expr := last (coords m) (Int 0).
Let phi : R := rho (Sym_phi (S m)).

Lemma old_fresh : mentions (Sym_phi (S m)) old = false.
Proof.
  apply (coords_fresh m); [lia|].
  destruct (coords_snoc m) as (prefix & E & _).
  unfold old. rewrite E at 2. apply in_or_app. right. now left.
Qed.

(** The closed rows are unchanged by the next split. *)
Lemma jacobian_at_closed_row (i j : nat) :
  (i < S m)%nat -> jacobian_at rho (S m) i j = jacobian_at rho m i j.
Proof.
  intros Hi. unfold jacobian_at.
  destruct (coords_snoc m) as (prefix & Em & Hlen & ES).
  rewrite ES, Em, !app_nth1 by lia. reflexivity.
Qed.

(** They do not depend on the new angle. *)
Lemma jacobian_at_new_column (i : nat) :
  (i < S m)%nat -> jacobian_at rho (S m) i (S (S m)) = 0.
Proof.
  intros Hi. rewrite jacobian_at_closed_row by exact Hi.
  unfold jacobian_at. apply diff_fresh. apply (coords_fresh m); [lia|].
  apply nth_In. rewrite coords_length. lia.
Qed.

Lemma nth_old : nth (S m) (coords m) (Int 0) = old.
Proof.
  destruct (coords_snoc m) as (prefix & Em & Hlen & _).
  unfold old. rewrite Em at 1.
  rewrite app_nth2, Hlen, Nat.sub_diag by lia. reflexivity.
Qed.

(** The open row splits into a cosine row and a sine row. *)
Lemma jacobian_at_cos_row (j : nat) :
  (j < S (S m))%nat ->
  jacobian_at rho (S m) (S m) j = cos phi * jacobian_at rho m (S m) j.
Proof.
  intros Hj. unfold jacobian_at. rewrite nth_old.
  destruct (coords_snoc m) as (prefix & _ & Hlen & ->).
  rewrite app_nth2, Hlen, Nat.sub_diag by lia. fold old.
  cbn [nth diff eval Neg]. rewrite (var_at_not_next m j Hj).
  cbn [eval]. fold phi. ring.
Qed.

Lemma jacobian_at_sin_row (j : nat) :
  (j < S (S m))%nat ->
  jacobian_at rho (S m) (S (S m)) j = sin phi * jacobian_at rho m (S m) j.
Proof.
  intros Hj. unfold jacobian_at. rewrite nth_old.
  destruct (coords_snoc m) as (prefix & _ & Hlen & ->).
  rewrite app_nth2, Hlen by lia.
  replace (S (S m) - S m)%nat with 1%nat by lia. fold old.
  cbn [nth diff eval Neg]. rewrite (var_at_not_next m j Hj).
  cbn [eval]. fold phi. ring.
Qed.

Lemma jacobian_at_cos_corner :
  jacobian_at rho (S m) (S m) (S (S m)) = - (eval rho old * sin phi).
Proof.
  unfold jacobian_at.
  destruct (coords_snoc m) as (prefix & _ & Hlen & ->).
  rewrite app_nth2, Hlen, Nat.sub_diag by lia. fold old.
  cbn [nth diff eval Neg var_at]. rewrite symbol_eqb_refl.
  rewrite (diff_fresh old _ rho old_fresh).
  cbn [eval]. fold phi. ring.
Qed.

Lemma jacobian_at_sin_corner :
  jacobian_at rho (S m) (S (S m)) (S (S m)) = eval rho old * cos phi.
Proof.
  unfold jacobian_at.
  destruct (coords_snoc m) as (prefix & _ & Hlen & ->).
  rewrite app_nth2, Hlen by lia.
  replace (S (S m) - S m)%nat with 1%nat by lia. fold old.
  cbn [nth diff eval Neg var_at]. rewrite symbol_eqb_refl.
  rewrite (diff_fresh old _ rho old_fresh).
  cbn [eval]. fold phi. ring.
Qed.

(** One more split multiplies the determinant by the open coordinate. *)
Lemma det_jacobian_step :
  det_R (S (S (S m))) (jacobian_at rho (S m))
  = eval rho old * det_R (S (S m)) (jacobian_at rho m).
Proof.
  rewrite det_R_S, (sum_upto_last_two (S m)).
  rewrite sum_upto_zero.
  2:{ intros i Hi. rewrite jacobian_at_new_column by exact Hi.
      rewrite signed_scale. ring. }
  rewrite signed_odd, signed_even.
  rewrite jacobian_at_cos_corner, jacobian_at_sin_corner.
  rewrite (det_R_scale_last_row (sin phi) (S m)
             (skip_row (S m) (jacobian_at rho (S m))) (jacobian_at rho m)).
  2:{ intros i j Hi Hj. unfold skip_row.
      destruct (Nat.ltb_spec i (S m)); [|lia].
      now apply jacobian_at_closed_row. }
  2:{ intros j Hj. unfold skip_row. rewrite Nat.ltb_irrefl.
      now apply jacobian_at_sin_row. }
  rewrite (det_R_scale_last_row (cos phi) (S m)
             (skip_row (S (S m)) (jacobian_at rho (S m)))
             (jacobian_at rho m)).
  2:{ intros i j Hi Hj. unfold skip_row.
      destruct (Nat.ltb_spec i (S (S m))); [|lia].
      now apply jacobian_at_closed_row. }
  2:{ intros j Hj. unfold skip_row.
      destruct (Nat.ltb_spec (S m) (S (S m))); [|lia].
      now apply jacobian_at_cos_row. }
  pose proof (sin2_cos2 phi) as H. unfold Rsqr in H.
  set (d := det_R (S (S m)) (jacobian_at rho m)).
  replace (eval rho old * d)
    with (eval rho old * d * (sin phi * sin phi + cos phi * cos phi))
    by (rewrite H; ring).
  ring.
Qed.

End Recurrence.

Lemma det_jacobian_planar (rho : env) :
  det_R 2 (jacobian_at rho 0) = rho Sym_r.
Proof.
  unfold det_R, jacobian_at. cbn. unfold signed. cbn.
  pose proof (sin2_cos2 (rho (Sym_phi 0))) as H. unfold Rsqr in H.
  set (c := cos (rho (Sym_phi 0))) in *.
  set (s := sin (rho (Sym_phi 0))) in *.
  replace (rho Sym_r) with (rho Sym_r * (s * s + c * c)) at 5
    by (rewrite H; ring).
  ring.
Qed.

(** The open coordinate is r sin(phi0) ... sin(phi_m). *)
Lemma eval_last_coords (rho : env) (m : nat) :
  eval rho (last (coords m) (Int 0))
  = rho Sym_r * Rprod (S m) (fun i => sin (rho (Sym_phi i))).
Proof.
  induction m as [|m IH]; [simpl; ring|].
  rewrite last_coords_S. cbn [eval]. rewrite IH. cbn [Rprod]. ring.
Qed.

Lemma Rprod_ext (k : nat) (f g : nat -> R) :
  (forall i, (i < k)%nat -> f i = g i) -> Rprod k f = Rprod k g.
Proof.
  induction k as [|k IH]; intros H; simpl; [reflexivity|].
  rewrite IH, H by auto with arith. reflexivity.
Qed.

Lemma Rprod_mult (k : nat) (f g : nat -> R) :
  Rprod k (fun i => f i * g i) = Rprod k f * Rprod k g.
Proof. induction k as [|k IH]; simpl; [ring|]. rewrite IH. ring. Qed.

Lemma eval_product_upto (rho : env) (k : nat) (f : nat -> expr) :
  eval rho (product_upto k f) = Rprod k (fun i => eval rho (f i)).
Proof. induction k as [|k IH]; simpl; [reflexivity|]. now rewrite IH. Qed.

Lemma eval_sine_powers (rho : env) (k : nat) :
  eval rho (sine_powers k)
  = Rprod k (fun i => sin (rho (Sym_phi i)) ^ (k - i)).
Proof. unfold sine_powers. now rewrite eval_product_upto. Qed.

Lemma eval_sine_powers_S (rho : env) (k : nat) :
  eval rho (sine_powers (S k))
  = Rprod (S k) (fun i => sin (rho (Sym_phi i))) * eval rho (sine_powers k).
Proof.
  rewrite !eval_sine_powers. cbn [Rprod].
  replace (S k - k)%nat with 1%nat by lia.
  rewrite (Rprod_ext k _ (fun i => sin (rho (Sym_phi i))
                                   * sin (rho (Sym_phi i)) ^ (k - i))).
  - rewrite Rprod_mult. ring.
  - intros i Hi. replace (S k - i)%nat with (S (k - i)) by lia.
    reflexivity.
Qed.

(** The determinant of the Jacobian with [m] splits is the volume element
    of dimension [m + 2]. *)
Lemma det_jacobian_closed_form (rho : env) (m : nat) :
  det_R (S (S m)) (jacobian_at rho m) = eval rho (volume_element (S (S m))).
Proof.
  induction m as [|m IH].
  - rewrite det_jacobian_planar. simpl. ring.
  - rewrite det_jacobian_step, IH, eval_last_coords.
    unfold volume_element.
    replace (S (S (S m)) - 2)%nat with (S m) by lia.
    replace (S (S m) - 2)%nat with m by lia.
    replace (S (S (S m)) - 1)%nat with (S (S m)) by lia.
    replace (S (S m) - 1)%nat with (S m) by lia.
    cbn [eval]. rewrite (eval_sine_powers_S rho m).
    rewrite <- (tech_pow_Rmult (rho Sym_r) (S m)). ring.
Qed.

Section Simplify.

Variable simplify : expr -> expr.
Hypothesis simplify_sound :
  forall (rho : env) (e : expr), eval rho (simplify e) = eval rho e.

Lemma eval_jacobian_det (dim : Z) (rho : env) :
  eval rho
    (simplify (det_expr (components dim)
                 (entry (jacobian_entries (Z.to_nat (dim - 2))))))
  = eval rho (volume_element (components dim)).
Proof.
  rewrite simplify_sound. unfold components.
  rewrite eval_det_jacobian. apply det_jacobian_closed_form.
Qed.

(** C3: the simplified determinant is algebraically equal to r for n = 1,
    to r for n = 2 and to r^2 sin(phi0) for n = 3. *)
Theorem jacobian_det_small_dimensions :
  (exists self d,
      __init__ 1 = inr self /\
      jacobian_det simplify self = (inr d, self) /\
      forall rho, eval rho d = eval rho (Sym (r self))) /\
  (exists self d,
      __init__ 2 = inr self /\
      jacobian_det simplify self = (inr d, self) /\
      forall rho, eval rho d = eval rho (Sym (r self))) /\
  (exists self d,
      __init__ 3 = inr self /\
      jacobian_det simplify self = (inr d, self) /\
      forall rho,
        eval rho d
        = eval rho (Mul (Pow (Sym (r self)) 2) (Sin (Sym (Sym_phi 0))))).
Proof.
  split; [|split]; eexists; eexists;
    (split; [reflexivity|]);
    (split; [apply jacobian_det_run|]);
    intros rho; rewrite eval_jacobian_det; simpl; ring.
Qed.

(** C2, amended: for every n >= 2 the simplified determinant is
    algebraically equal to r^(n-1) sin^(n-2)(phi0) sin^(n-3)(phi1) ...
    sin(phi_{n-3}), and for n = 1 to r. *)
Theorem jacobian_det_volume_element (dim : Z) :
  (1 <= dim)%Z ->
  exists self d,
    __init__ dim = inr self /\
    jacobian_det simplify self = (inr d, self) /\
    forall rho,
      eval rho d
      = eval rho (if (dim =? 1)%Z then Sym (r self)
                  else volume_element (Z.to_nat dim)).
Proof.
  intros H. eexists. eexists.
  split; [apply (__init___ok dim H)|].
  split; [apply jacobian_det_run|].
  intros rho. rewrite eval_jacobian_det.
  destruct (Z.eqb_spec dim 1) as [->|Hne].
  - simpl. ring.
  - unfold components. now replace (S (S (Z.to_nat (dim - 2))))
      with (Z.to_nat dim) by lia.
Qed.

End Simplify.

Lemma jacobian_det_small_dimensions_witness :
  (forall (rho : env) (e : expr), eval rho e = eval rho e) /\
  exists self d,
    __init__ 3 = inr self /\
    jacobian_det (fun e => e) self = (inr d, self) /\
    forall rho,
      eval rho d
      = eval rho (Mul (Pow (Sym (r self)) 2) (Sin (Sym (Sym_phi 0)))).
Proof.
  split; [reflexivity|].
  apply (jacobian_det_small_dimensions (fun e => e)). reflexivity.
Defined.

Lemma jacobian_det_volume_element_witness :
  exists self d,
    __init__ 4 = inr self /\
    jacobian_det (fun e => e) self = (inr d, self) /\
    forall rho, eval rho d = eval rho (volume_element 4).
Proof.
  apply (jacobian_det_volume_element (fun e => e)
           (fun _ _ => eq_refl) 4).
  lia.
Defined.

(** C2 as stated fails: in dimension 2 the determinant is r, not r^2; at
    r = 2 the two differ. *)
Lemma spec_determinant_counterexample :
  exists self d,
    __init__ 2 = inr self /\
    jacobian_det (fun e => e) self = (inr d, self) /\
    eval (fun _ => 2) d = 2 /\
    eval (fun _ => 2) (spec_determinant (Z.to_nat 2)) = 4 /\
    eval (fun _ => 2) d <> eval (fun _ => 2) (spec_determinant (Z.to_nat 2)).
Proof.
  eexists. eexists.
  split; [reflexivity|]. split; [apply jacobian_det_run|].
  assert (E : eval (fun _ => 2)
                (det_expr (components 2)
                   (entry (jacobian_entries (Z.to_nat (2 - 2))))) = 2).
  { rewrite (eval_jacobian_det (fun e => e) (fun _ _ => eq_refl) 2).
    simpl. ring. }
  assert (F : eval (fun _ => 2) (spec_determinant (Z.to_nat 2)) = 4)
    by (simpl; ring).
  split; [exact E|]. split; [exact F|].
  rewrite E, F. lra.
Qed.

(** ** Integrals *)

Lemma is_RInt_unique (f : R -> R) (a b v1 v2 : R) :
  is_RInt f a b v1 -> is_RInt f a b v2 -> v1 = v2.
Proof. intros [pr1 <-] [pr2 <-]. apply RiemannInt_P5. Qed.

(** The fundamental theorem of calculus, for a continuous integrand. *)
Lemma is_RInt_FTC (f F : R -> R) (a b : R) :
  a <= b ->
  (forall x, a <= x <= b -> derivable_pt_lim F x (f x)) ->
  (forall x, a <= x <= b -> continuity_pt f x) ->
  is_RInt f a b (F b - F a).
Proof.
  intros Hab HF Hc.
  exists (continuity_implies_RiemannInt Hab Hc).
  rewrite (RiemannInt_P20 Hab (FTC_P1 Hab Hc)).
  assert (HA : antiderivative f F a b).
  { split; [|exact Hab]. intros x Hx.
    exists (exist _ (f x) (HF x Hx)). reflexivity. }
  destruct (antiderivative_Ucte _ _ _ _ _ (RiemannInt_P29 Hab Hc) HA)
    as [c Hc'].
  rewrite (Hc' a), (Hc' b) by lra. ring.
Qed.

Lemma tends_to_at_infinity_unique (g : R -> R) (l1 l2 : R) :
  tends_to_at_infinity g l1 -> tends_to_at_infinity g l2 -> l1 = l2.
Proof.
  intros H1 H2. destruct (Req_dec l1 l2) as [E|N]; [exact E|exfalso].
  assert (Hpos : 0 < Rabs (l1 - l2) / 2).
  { pose proof (Rabs_pos_lt (l1 - l2)) as P. lra. }
  destruct (H1 _ Hpos) as [b1 Hb1]. destruct (H2 _ Hpos) as [b2 Hb2].
  specialize (Hb1 (Rmax b1 b2) (Rmax_l _ _)).
  specialize (Hb2 (Rmax b1 b2) (Rmax_r _ _)).
  set (y := g (Rmax b1 b2)) in *.
  replace (l1 - l2) with ((y - l2) - (y - l1)) in Hb1, Hb2 by ring.
  pose proof (Rabs_triang (y - l2) (- (y - l1))) as T.
  rewrite Rabs_Ropp in T. unfold Rminus in *. lra.
Qed.

Lemma tends_to_at_infinity_eventually (g h : R -> R) (a l : R) :
  (forall b, a <= b -> g b = h b) ->
  tends_to_at_infinity g l -> tends_to_at_infinity h l.
Proof.
  intros E H eps Heps. destruct (H eps Heps) as [b0 Hb0].
  exists (Rmax a b0). intros b Hb.
  rewrite <- E by (pose proof (Rmax_l a b0); lra).
  apply Hb0. pose proof (Rmax_r a b0). lra.
Qed.

Lemma is_RInt_to_infinity_unique (f : R -> R) (a v1 v2 : R) :
  is_RInt_to_infinity f a v1 -> is_RInt_to_infinity f a v2 -> v1 = v2.
Proof.
  intros (g1 & I1 & L1) (g2 & I2 & L2).
  apply (tends_to_at_infinity_unique g2); [|exact L2].
  apply (tends_to_at_infinity_eventually g1 g2 a); [|exact L1].
  intros b Hb. exact (is_RInt_unique _ _ _ _ _ (I1 b Hb) (I2 b Hb)).
Qed.

Lemma integral_over_unique (l : limit) (F : env -> R) (rho : env)
  (v1 v2 : R) :
  integral_over l F rho v1 -> integral_over l F rho v2 -> v1 = v2.
Proof.
  destruct l as [[x [a|]] [b|]]; simpl; try contradiction.
  - apply is_RInt_unique.
  - apply is_RInt_to_infinity_unique.
Qed.

Lemma integral_unique (ls : list limit) :
  forall (F : env -> R) (rho : env) (v1 v2 : R),
    integral F ls rho v1 -> integral F ls rho v2 -> v1 = v2.
Proof.
  induction ls as [|l ls IH]; intros F rho v1 v2 H1 H2.
  - inversion H1; subst. inversion H2; subst. reflexivity.
  - inversion H1 as [|F1 G1 l1 ls1 rho1 w1 O1 R1]; subst.
    inversion H2 as [|F2 G2 l2 ls2 rho2 w2 O2 R2]; subst.
    assert (E : G1 = G2).
    { apply FunctionalExtensionality.functional_extensionality.
      intros rho'. exact (integral_over_unique _ _ _ _ _ (O1 rho') (O2 rho')). }
    subst G2. exact (IH _ _ _ _ R1 R2).
Qed.

(** A result stands for at most one real number. *)
Lemma denotes_unique (rho : env) (a : value) :
  forall v1 v2 : R, denotes rho a v1 -> denotes rho a v2 -> v1 = v2.
Proof.
  induction a as [f ls|a IH]; intros v1 v2 H1 H2.
  - inversion H1; subst. inversion H2; subst.
    eapply integral_unique; eassumption.
  - inversion H1; subst. inversion H2; subst.
    f_equal. now apply IH.
Qed.

Lemma eval_continuous (e : expr) (x : symbol) (rho : env) (t0 : R) :
  continuity_pt (fun t => eval (upd rho x t) e) t0.
Proof.
  apply derivable_continuous_pt.
  exists (eval (upd rho x t0) (diff e x)). apply diff_sound.
Qed.

Lemma continuity_pt_ext (f g : R -> R) (x : R) :
  (forall t, f t = g t) -> continuity_pt f x -> continuity_pt g x.
Proof.
  intros E H. replace g with f; [exact H|].
  apply FunctionalExtensionality.functional_extensionality. exact E.
Qed.

(** A rational multiple of the meaning of an expression, as a function of
    one symbol, with its derivative. *)
Lemma scaled_diff_sound (c : R) (e : expr) (x : symbol) (rho : env)
  (t0 : R) :
  derivable_pt_lim (fun t => c * eval (upd rho x t) e) t0
    (c * eval (upd rho x t0) (diff e x)).
Proof.
  apply (derivable_pt_lim_scal (fun t => eval (upd rho x t) e)).
  apply diff_sound.
Qed.

Lemma tends_to_at_infinity_minus (g : R -> R) (l c : R) :
  tends_to_at_infinity g l ->
  tends_to_at_infinity (fun b => g b - c) (l - c).
Proof.
  intros H eps Heps. destruct (H eps Heps) as [b0 Hb0]. exists b0.
  intros b Hb. replace (g b - c - (l - c)) with (g b - l) by ring.
  now apply Hb0.
Qed.

Lemma tends_to_at_infinity_scale (g : R -> R) (l c : R) :
  tends_to_at_infinity g l ->
  tends_to_at_infinity (fun b => c * g b) (c * l).
Proof.
  intros H eps Heps.
  destruct (Req_dec c 0) as [->|Hc].
  - exists 0. intros b _. rewrite !Rmult_0_l, Rminus_diag, Rabs_R0.
    exact Heps.
  - assert (Hpos : 0 < Rabs c) by now apply Rabs_pos_lt.
    destruct (H (eps / Rabs c)) as [b0 Hb0].
    { now apply Rdiv_lt_0_compat. }
    exists b0. intros b Hb.
    replace (c * g b - c * l) with (c * (g b - l)) by ring.
    rewrite Rabs_mult. specialize (Hb0 b Hb).
    apply (Rmult_lt_compat_l (Rabs c)) in Hb0; [|exact Hpos].
    replace (Rabs c * (eps / Rabs c)) with eps in Hb0
      by (field; lra).
    exact Hb0.
Qed.

(** A function bounded by [c / t] for [t >= 1] tends to 0. *)
Lemma tends_to_zero_by_bound (g : R -> R) (c : R) :
  0 <= c ->
  (forall t, 1 <= t -> Rabs (g t) <= c / t) ->
  tends_to_at_infinity g 0.
Proof.
  intros Hc H eps Heps. exists (Rmax 1 (c / eps + 1)). intros b Hb.
  pose proof (Rmax_l 1 (c / eps + 1)) as H1.
  pose proof (Rmax_r 1 (c / eps + 1)) as H2.
  assert (Hb1 : 1 <= b) by lra.
  assert (Hb2 : c / eps < b) by lra.
  rewrite Rminus_0_r. apply (Rle_lt_trans _ (c / b)); [now apply H|].
  apply (Rmult_lt_reg_r b); [lra|].
  replace (c / b * b) with c by (field; lra).
  apply (Rmult_lt_compat_r eps) in Hb2; [|exact Heps].
  replace (c / eps * eps) with c in Hb2 by (field; lra).
  lra.
Qed.

(** The improper integral by an antiderivative with a limit at infinity. *)
Lemma is_RInt_to_infinity_FTC (f F : R -> R) (a l : R) :
  (forall x, a <= x -> derivable_pt_lim F x (f x)) ->
  (forall x, a <= x -> continuity_pt f x) ->
  tends_to_at_infinity F l ->
  is_RInt_to_infinity f a (l - F a).
Proof.
  intros HF Hc Hl. exists (fun b => F b - F a). split.
  - intros b Hb. apply is_RInt_FTC; [exact Hb| |].
    + intros x Hx. apply HF. lra.
    + intros x Hx. apply Hc. lra.
  - now apply tends_to_at_infinity_minus.
Qed.

Lemma is_RInt_const (c a b : R) : is_RInt (fun _ => c) a b (c * (b - a)).
Proof. exists (RiemannInt_P14 a b c). apply RiemannInt_P15. Qed.

(** [u exp(-u) <= 4 / u] for [u > 0]. *)
Lemma exp_decay (u : R) : 0 < u -> u * exp (- u) <= 4 / u.
Proof.
  intros Hu.
  assert (Hhalf : 1 + u / 2 <= exp (u / 2)) by apply exp_ineq1_le.
  assert (Hexp : exp u = exp (u / 2) * exp (u / 2)).
  { rewrite <- exp_plus. f_equal. field. }
  assert (Hinv : exp (- u) * exp u = 1).
  { rewrite <- exp_plus, Rplus_opp_l. apply exp_0. }
  pose proof (exp_pos (- u)) as Hpos.
  pose proof (exp_pos (u / 2)) as Hpos2.
  assert (Hsq : u * u <= 4 * exp u).
  { rewrite Hexp. nra. }
  apply (Rmult_le_reg_r u); [exact Hu|].
  replace (4 / u * u) with 4 by (field; lra).
  replace 4 with (4 * (exp (- u) * exp u)) at 2 by (rewrite Hinv; ring).
  nra.
Qed.

(** ** The radial integral in dimensions 1 and 2 *)

Lemma gauss_tail (t : R) :
  1 <= t -> t ^ 2 * exp (-1 * t ^ 2) <= 4 / t.
Proof.
  intros Ht. replace (-1 * t ^ 2) with (- (t ^ 2)) by ring.
  assert (Hu : 0 < t ^ 2) by nra.
  apply (Rle_trans _ (4 / t ^ 2)); [now apply exp_decay|].
  apply (Rmult_le_reg_r (t ^ 2)); [exact Hu|].
  replace (4 / t ^ 2 * t ^ 2) with 4 by (field; lra).
  replace (4 / t * t ^ 2) with (4 * t) by (field; lra).
  lra.
Qed.

Lemma minus_gauss_vanishes (rho : env) :
  tends_to_at_infinity
    (fun t => 1 / 2 * eval (upd rho Sym_r t) minus_gauss) 0.
Proof.
  apply (tends_to_zero_by_bound _ 4); [lra|]. intros t Ht.
  cbn [minus_gauss Neg eval]. rewrite upd_same.
  pose proof (gauss_tail t Ht) as H.
  pose proof (exp_pos (-1 * t ^ 2)) as Hpos.
  assert (Hsq : 1 <= t ^ 2) by nra.
  assert (Hle : 1 * exp (-1 * t ^ 2) <= t ^ 2 * exp (-1 * t ^ 2))
    by (apply Rmult_le_compat_r; lra).
  rewrite Rabs_left1 by lra. lra.
Qed.

(** The integral of [exp(-r^2) * d] over r from 0 to infinity is 1/2 when
    [d] is algebraically equal to r. *)
Lemma radial_integral_planar (d : expr) (rho : env) :
  (forall rho', eval rho' d = rho' Sym_r) ->
  is_RInt_to_infinity (fun t => eval (upd rho Sym_r t) (integrand d)) 0
    (1 / 2).
Proof.
  intros Hd.
  replace (1 / 2) with (0 - 1 / 2 * eval (upd rho Sym_r 0) minus_gauss).
  2:{ cbn [minus_gauss Neg eval]. rewrite upd_same.
      replace (-1 * 0 ^ 2) with 0 by ring. rewrite exp_0. lra. }
  apply (is_RInt_to_infinity_FTC _
           (fun t => 1 / 2 * eval (upd rho Sym_r t) minus_gauss)).
  - intros x _.
    replace (eval (upd rho Sym_r x) (integrand d))
      with (1 / 2 * eval (upd rho Sym_r x) (diff minus_gauss Sym_r)).
    + apply scaled_diff_sound.
    + unfold integrand. cbn [minus_gauss Neg eval diff symbol_eqb Z.of_nat].
      rewrite Hd, upd_same. cbn. field.
  - intros x _. apply eval_continuous.
  - apply minus_gauss_vanishes.
Qed.

(** ** More on integrals *)

Lemma is_RInt_ext (f g : R -> R) (a b v : R) :
  a <= b -> (forall x, a <= x <= b -> f x = g x) ->
  is_RInt f a b v -> is_RInt g a b v.
Proof.
  intros Hab E [pr <-].
  assert (E' : forall x, Rmin a b <= x <= Rmax a b -> f x = g x).
  { intros x. rewrite (Rmin_left a b Hab), (Rmax_right a b Hab). apply E. }
  exists (@Riemann_integrable_ext f g a b E' pr).
  apply RiemannInt_P18; [exact Hab|].
  intros x Hx. symmetry. apply E. lra.
Qed.

Lemma is_RInt_scale (k : R) (f : R -> R) (a b v : R) :
  a <= b -> is_RInt f a b v -> is_RInt (fun t => k * f t) a b (k * v).
Proof.
  intros Hab [pr <-].
  apply (is_RInt_ext (fun x => fct_cte 0 x + k * f x)); [exact Hab| |].
  - intros x _. unfold fct_cte. ring.
  - exists (RiemannInt_P10 k (RiemannInt_P14 a b 0) pr).
    rewrite (RiemannInt_P13 (RiemannInt_P14 a b 0) pr), RiemannInt_P15.
    ring.
Qed.

Lemma is_RInt_le (f g : R -> R) (a b v w : R) :
  a <= b -> (forall x, a < x < b -> f x <= g x) ->
  is_RInt f a b v -> is_RInt g a b w -> v <= w.
Proof.
  intros Hab Hle [pr1 <-] [pr2 <-]. now apply RiemannInt_P19.
Qed.

(** ** The radial integral in dimension 3 *)

Lemma gauss_moment_eq (t : R) : gauss_moment t = t ^ 2 * exp (-1 * t ^ 2).
Proof.
  unfold gauss_moment. cbn [moment_expr Neg eval]. now rewrite upd_same.
Qed.

Lemma is_RInt_to_infinity_scale (k : R) (f h : R -> R) (a l : R) :
  (forall t, a <= t -> h t = k * f t) ->
  is_RInt_to_infinity f a l -> is_RInt_to_infinity h a (k * l).
Proof.
  intros E (g & Hg & Hl). exists (fun b => k * g b). split.
  - intros b Hb.
    apply (is_RInt_ext (fun t => k * f t)); [exact Hb| |].
    + intros x Hx. symmetry. apply E. lra.
    + apply is_RInt_scale; [exact Hb|]. now apply Hg.
  - now apply tends_to_at_infinity_scale.
Qed.

(** ** The value of the iterated integral *)

(** Dimensions 1 and 2: the planar integral of [exp(-r^2) r] is pi. *)
Lemma integral_planar (d : expr) (rho : env) :
  (forall rho', eval rho' d = rho' Sym_r) ->
  integral (fun rho' => eval rho' (integrand d)) (limits 0) rho PI.
Proof.
  intros Hd. unfold limits. cbn [symbols_phi0_upto seq map].
  apply integral_cons with (G := fun _ => 1 / 2).
  { intros rho'. cbn [integral_over eval].
    now apply radial_integral_planar. }
  apply integral_cons with (G := fun _ => PI).
  { intros rho'. cbn [integral_over eval].
    replace PI with (1 / 2 * (2 * PI - 0)) at 2 by field.
    apply is_RInt_const. }
  exact (@integral_nil (fun _ => PI) rho).
Qed.

(** Dimension 3: the integral of [exp(-r^2) r^2 sin(phi0)] is 4 pi times
    the radial integral of [r^2 exp(-r^2)]. *)
Lemma integral_spatial (d : expr) (rho : env) (l : R) :
  (forall rho', eval rho' d = rho' Sym_r ^ 2 * sin (rho' (Sym_phi 0))) ->
  is_RInt_to_infinity gauss_moment 0 l ->
  integral (fun rho' => eval rho' (integrand d)) (limits 1) rho
    (4 * PI * l).
Proof.
  intros Hd Hl. unfold limits. cbn [symbols_phi0_upto seq map].
  apply integral_cons with (G := fun rho' => sin (rho' (Sym_phi 0)) * l).
  { intros rho'. cbn [integral_over eval].
    apply (is_RInt_to_infinity_scale _ gauss_moment); [|exact Hl].
    intros t _. unfold integrand. cbn [Neg eval].
    rewrite Hd, gauss_moment_eq, upd_same.
    rewrite upd_other by discriminate. ring. }
  apply integral_cons
    with (G := fun rho' => sin (rho' (Sym_phi 0)) * l * (2 * PI - 0)).
  { intros rho'. cbn [integral_over eval].
    apply (is_RInt_const (sin (rho' (Sym_phi 0)) * l)). }
  apply integral_cons with (G := fun _ => 4 * PI * l).
  { intros rho'. cbn [integral_over eval].
    set (F := fun t => - (l * (2 * PI)) *
                       eval (upd rho' (Sym_phi 0) t) (Cos (Sym (Sym_phi 0)))).
    replace (4 * PI * l) with (F PI - F 0).
    2:{ unfold F. cbn [eval]. rewrite !upd_same, cos_PI, cos_0. ring. }
    apply is_RInt_FTC; [left; apply PI_RGT_0| |].
    - intros x _.
      replace (sin (upd rho' (Sym_phi 0) x (Sym_phi 0)) * l * (2 * PI - 0))
        with (- (l * (2 * PI)) *
              eval (upd rho' (Sym_phi 0) x)
                (diff (Cos (Sym (Sym_phi 0))) (Sym_phi 0))).
      + apply scaled_diff_sound.
      + cbn [Neg eval diff symbol_eqb Nat.eqb]. rewrite upd_same. cbn. ring.
    - intros x _.
      apply (continuity_pt_ext
               (fun t => l * (2 * PI - 0) *
                         eval (upd rho' (Sym_phi 0) t)
                           (Sin (Sym (Sym_phi 0))))).
      + intros t. cbn [eval]. ring.
      + apply derivable_continuous_pt. eexists.
        apply scaled_diff_sound. }
  exact (@integral_nil (fun _ => 4 * PI * l) rho).
Qed.


(** ** Differentiation under the integral sign *)

Lemma derivable_pt_lim_linear (a x : R) :
  derivable_pt_lim (fun y => a * y) x a.
Proof.
  assert (H : derivable_pt_lim (fun y => a * y) x (a * 1))
    by apply (derivable_pt_lim_scal (fun y => y)), derivable_pt_lim_id.
  now rewrite Rmult_1_r in H.
Qed.

Lemma derivable_pt_lim_ext (f g : R -> R) (x l : R) :
  (forall t, f t = g t) -> derivable_pt_lim f x l -> derivable_pt_lim g x l.
Proof.
  intros E H. replace g with f; [exact H|].
  apply FunctionalExtensionality.functional_extensionality. exact E.
Qed.

Lemma is_RInt_plus (f g : R -> R) (a b v w : R) :
  a <= b -> is_RInt f a b v -> is_RInt g a b w ->
  is_RInt (fun t => f t + g t) a b (v + w).
Proof.
  intros Hab [pr1 <-] [pr2 <-].
  apply (is_RInt_ext (fun x => f x + 1 * g x)); [exact Hab| |].
  - intros x _. ring.
  - exists (RiemannInt_P10 1 pr1 pr2).
    rewrite (RiemannInt_P13 pr1 pr2). ring.
Qed.

Lemma is_RInt_bound (f : R -> R) (a b v lo hi : R) :
  a <= b -> (forall x, a < x < b -> lo <= f x <= hi) ->
  is_RInt f a b v -> lo * (b - a) <= v <= hi * (b - a).
Proof. intros Hab H [pr <-]. now apply RiemannInt_const_bound. Qed.

Section UnderIntegral.

Variables (phi phi1 phi2 : R -> R -> R) (B : R -> R) (t0 D M : R).

Hypothesis B_integral : forall t, is_RInt (phi t) 0 1 (B t).
Hypothesis D_integral : is_RInt (phi1 t0) 0 1 D.
Hypothesis phi_derivable :
  forall x t, 0 <= x <= 1 -> derivable_pt_lim (fun s => phi s x) t (phi1 t x).
Hypothesis phi1_derivable :
  forall x t, 0 <= x <= 1 -> derivable_pt_lim (fun s => phi1 s x) t (phi2 t x).
Hypothesis phi2_bounded :
  forall x t, 0 <= x <= 1 -> t0 - 1 <= t <= t0 + 1 -> Rabs (phi2 t x) <= M.

Lemma M_nonneg : 0 <= M.
Proof.
  apply (Rle_trans _ (Rabs (phi2 t0 0))); [apply Rabs_pos|].
  apply phi2_bounded; lra.
Qed.

(** The difference quotient of the integrand is close to its derivative,
    uniformly in [x]. *)
Lemma quotient_close (x h : R) :
  0 <= x <= 1 -> h <> 0 -> Rabs h <= 1 ->
  Rabs ((phi (t0 + h) x - phi t0 x) / h - phi1 t0 x) <= M * Rabs h.
Proof.
  intros Hx Hh Hh1.
  destruct (MVT_abs (fun t => phi t x - phi1 t0 x * t)
              (fun t => phi1 t x - phi1 t0 x) t0 (t0 + h))
    as (c & Hc & Hcin).
  { intros c _.
    apply (derivable_pt_lim_minus (fun t => phi t x)
             (fun t => phi1 t0 x * t)); [now apply phi_derivable|].
    apply derivable_pt_lim_linear. }
  destruct (MVT_abs (fun t => phi1 t x) (fun t => phi2 t x) t0 c)
    as (c' & Hc' & Hc'in).
  { intros s _. now apply phi1_derivable. }
  assert (Hrange : Rmin t0 (t0 + h) <= c <= Rmax t0 (t0 + h) ->
                   Rabs (c - t0) <= Rabs h /\ t0 - 1 <= c <= t0 + 1).
  { unfold Rmin, Rmax. destruct (Rle_dec t0 (t0 + h)); intros Hr.
    - rewrite (Rabs_right h) in * by lra.
      rewrite Rabs_right by lra. lra.
    - rewrite (Rabs_left h) in * by lra.
      rewrite Rabs_left1 by lra. lra. }
  destruct (Hrange Hcin) as [Hch Hc1].
  assert (Hc'1 : t0 - 1 <= c' <= t0 + 1).
  { revert Hc'in. unfold Rmin, Rmax. destruct (Rle_dec t0 c); lra. }
  replace ((phi (t0 + h) x - phi t0 x) / h - phi1 t0 x)
    with ((phi (t0 + h) x - phi1 t0 x * (t0 + h)
           - (phi t0 x - phi1 t0 x * t0)) / h)
    by (field; exact Hh).
  unfold Rdiv. rewrite Rabs_mult, Hc, Rabs_inv.
  replace (t0 + h - t0) with h by ring.
  replace (Rabs (phi1 c x - phi1 t0 x) * Rabs h * / Rabs h)
    with (Rabs (phi1 c x - phi1 t0 x))
    by (field; now apply Rabs_no_R0).
  rewrite Hc'.
  pose proof (phi2_bounded x c' Hx Hc'1) as Hb.
  pose proof (Rabs_pos (phi2 c' x)). pose proof (Rabs_pos (c - t0)).
  pose proof M_nonneg. nra.
Qed.

Lemma derivable_under_integral : derivable_pt_lim B t0 D.
Proof.
  intros eps Heps. pose proof M_nonneg as HM.
  assert (Hdelta : 0 < Rmin 1 (eps / (M + 1))).
  { apply Rmin_pos; [lra|]. apply Rdiv_lt_0_compat; lra. }
  exists (mkposreal _ Hdelta). intros h Hh Hsmall. simpl in Hsmall.
  assert (Hh1 : Rabs h <= 1) by (pose proof (Rmin_l 1 (eps / (M + 1))); lra).
  assert (Hh2 : Rabs h < eps / (M + 1))
    by (pose proof (Rmin_r 1 (eps / (M + 1))); lra).
  assert (Hq : is_RInt
                 (fun x => (phi (t0 + h) x - phi t0 x) / h - phi1 t0 x) 0 1
                 ((B (t0 + h) - B t0) / h - D)).
  { apply (is_RInt_ext
             (fun x => (/ h * phi (t0 + h) x + - / h * phi t0 x)
                       + -1 * phi1 t0 x)); [lra| |].
    - intros x _. field. exact Hh.
    - replace ((B (t0 + h) - B t0) / h - D)
        with ((/ h * B (t0 + h) + - / h * B t0) + -1 * D)
        by (field; exact Hh).
      apply is_RInt_plus; [lra| |].
      + apply is_RInt_plus; [lra| |]; apply is_RInt_scale;
          try lra; apply B_integral.
      + apply is_RInt_scale; [lra|exact D_integral]. }
  assert (Hbetween :
            forall x, 0 < x < 1 ->
              - (M * Rabs h)
              <= (phi (t0 + h) x - phi t0 x) / h - phi1 t0 x
              <= M * Rabs h).
  { intros x Hx.
    assert (Hclose := quotient_close x h (conj (Rlt_le _ _ (proj1 Hx))
                                            (Rlt_le _ _ (proj2 Hx))) Hh Hh1).
    revert Hclose. unfold Rabs at 1. destruct (Rcase_abs _); lra. }
  destruct (is_RInt_bound _ 0 1 _ _ _ Rle_0_1 Hbetween Hq) as [Hlo Hhi].
  assert (Hlt : M * Rabs h < eps).
  { apply (Rle_lt_trans _ ((M + 1) * Rabs h)).
    - pose proof (Rabs_pos h). nra.
    - apply (Rmult_lt_compat_l (M + 1)) in Hh2; [|lra].
      replace ((M + 1) * (eps / (M + 1))) with eps in Hh2 by (field; lra).
      exact Hh2. }
  apply Rabs_def1; lra.
Qed.

End UnderIntegral.

(** ** The Gaussian integral *)

Lemma at_t_r (t : R) : at_t t Sym_r = t.
Proof. apply upd_same. Qed.

Lemma at_tx_r (t x : R) : at_tx t x Sym_r = t.
Proof. reflexivity. Qed.

Lemma at_tx_phi (t x : R) : at_tx t x (Sym_phi 0) = x.
Proof. reflexivity. Qed.

Lemma at_tx_swap (t x : R) :
  upd (upd (fun _ => 0) (Sym_phi 0) x) Sym_r t = at_tx t x.
Proof.
  apply FunctionalExtensionality.functional_extensionality.
  intros [|[|i]]; reflexivity.
Qed.

Lemma gauss_fun_eq (t : R) : gauss_fun t = exp (-1 * t ^ 2).
Proof. reflexivity. Qed.

Lemma kernel_eq (t x : R) :
  kernel t x = / (1 + x ^ 2) * exp (-1 * (t ^ 2 * (1 + x ^ 2))).
Proof. reflexivity. Qed.

Lemma kernel_t_eq (t x : R) :
  kernel_t t x = -2 * t * exp (-1 * (t ^ 2 * (1 + x ^ 2))).
Proof. reflexivity. Qed.

Lemma one_plus_square_pos (x : R) : 0 < 1 + x ^ 2.
Proof. pose proof (pow2_ge_0 x). lra. Qed.

Lemma exp_nonpos_le_1 (u : R) : u <= 0 -> exp u <= 1.
Proof.
  intros [H| ->]; [|rewrite exp_0; lra].
  rewrite <- exp_0. left. now apply exp_increasing.
Qed.

Lemma kernel_tt_bound (t0 t x : R) :
  0 <= x <= 1 -> t0 - 1 <= t <= t0 + 1 ->
  Rabs (kernel_tt t x) <= 2 + 8 * (Rabs t0 + 1) ^ 2.
Proof.
  intros Hx Ht.
  assert (E : kernel_tt t x
              = (-2 + 4 * t ^ 2 * (1 + x ^ 2))
                * exp (-1 * (t ^ 2 * (1 + x ^ 2)))).
  { unfold kernel_tt.
    cbn [damped1 damped Neg eval diff symbol_eqb Nat.eqb Z.of_nat].
    rewrite !at_tx_r, !at_tx_phi. cbn. ring. }
  rewrite E, Rabs_mult.
  pose proof (exp_pos (-1 * (t ^ 2 * (1 + x ^ 2)))) as Hpos.
  assert (Hle : exp (-1 * (t ^ 2 * (1 + x ^ 2))) <= 1).
  { apply exp_nonpos_le_1. pose proof (pow2_ge_0 t).
    pose proof (one_plus_square_pos x). nra. }
  rewrite (Rabs_right (exp _)) by lra.
  assert (Ht2 : t ^ 2 <= (Rabs t0 + 1) ^ 2).
  { assert (Rabs t <= Rabs t0 + 1).
    { unfold Rabs. destruct (Rcase_abs t), (Rcase_abs t0); lra. }
    pose proof (Rabs_pos t). rewrite <- (pow2_abs t).
    apply pow_incr. lra. }
  assert (Hx2 : 0 <= x ^ 2 <= 1) by nra.
  assert (Hin : Rabs (-2 + 4 * t ^ 2 * (1 + x ^ 2))
                <= 2 + 8 * (Rabs t0 + 1) ^ 2).
  { pose proof (pow2_ge_0 t). apply Rabs_le. nra. }
  pose proof (Rabs_pos (-2 + 4 * t ^ 2 * (1 + x ^ 2))). nra.
Qed.

Lemma kernel_derivable (x t : R) :
  derivable_pt_lim (fun s => kernel s x) t (kernel_t t x).
Proof.
  apply (derivable_pt_lim_ext
           (fun s => / (1 + x ^ 2)
                     * eval (upd (upd (fun _ => 0) (Sym_phi 0) x) Sym_r s)
                         damped)).
  { intros s. now rewrite at_tx_swap. }
  replace (kernel_t t x)
    with (/ (1 + x ^ 2)
          * eval (upd (upd (fun _ => 0) (Sym_phi 0) x) Sym_r t)
              (diff damped Sym_r)).
  { apply scaled_diff_sound. }
  rewrite at_tx_swap, kernel_t_eq.
  cbn [damped Neg eval diff symbol_eqb Nat.eqb Z.of_nat].
  rewrite !at_tx_r, !at_tx_phi. cbn.
  pose proof (one_plus_square_pos x). field. cbn in *. lra.
Qed.

Lemma kernel_t_derivable (x t : R) :
  derivable_pt_lim (fun s => kernel_t s x) t (kernel_tt t x).
Proof.
  apply (derivable_pt_lim_ext
           (fun s => eval (upd (upd (fun _ => 0) (Sym_phi 0) x) Sym_r s)
                       damped1)).
  { intros s. now rewrite at_tx_swap. }
  unfold kernel_tt. rewrite <- at_tx_swap. apply diff_sound.
Qed.

Lemma inv_one_plus_square_continuous (x : R) :
  continuity_pt (fun y => / (1 + y ^ 2)) x.
Proof.
  apply (continuity_pt_inv (fun y => 1 + y ^ 2)).
  - apply (continuity_pt_ext (fun y => eval (at_tx 0 y) one_plus_square)).
    + intros y. reflexivity.
    + apply eval_continuous.
  - pose proof (one_plus_square_pos x). lra.
Qed.

Lemma kernel_continuous (t x : R) : continuity_pt (kernel t) x.
Proof.
  apply (continuity_pt_mult (fun y => / (1 + y ^ 2))
           (fun y => eval (at_tx t y) damped)).
  - apply inv_one_plus_square_continuous.
  - apply eval_continuous.
Qed.

Lemma kernel_integral_exists :
  exists B : R -> R, forall t, is_RInt (kernel t) 0 1 (B t).
Proof.
  exists (fun t =>
            RiemannInt
              (continuity_implies_RiemannInt Rle_0_1
                 (fun x _ => kernel_continuous t x))).
  intros t. eexists. reflexivity.
Qed.

Lemma exp_le_compat (x y : R) : x <= y -> exp x <= exp y.
Proof.
  intros [H| ->]; [left; now apply exp_increasing|apply Rle_refl].
Qed.

Lemma kernel_at_zero (x : R) : kernel 0 x = / (1 + x ^ 2).
Proof.
  rewrite kernel_eq. replace (-1 * (0 ^ 2 * (1 + x ^ 2))) with 0 by ring.
  rewrite exp_0. ring.
Qed.

Lemma kernel_between (t x : R) : 0 <= kernel t x <= exp (-1 * t ^ 2).
Proof.
  rewrite kernel_eq.
  pose proof (one_plus_square_pos x) as Hpos.
  pose proof (exp_pos (-1 * (t ^ 2 * (1 + x ^ 2)))) as He.
  assert (Hinv : 0 < / (1 + x ^ 2) <= 1).
  { split; [now apply Rinv_0_lt_compat|].
    apply (Rle_trans _ (/ 1)); [|rewrite Rinv_1; lra].
    apply Rinv_le_contravar; [lra|].
    pose proof (pow2_ge_0 x). lra. }
  assert (Hle : exp (-1 * (t ^ 2 * (1 + x ^ 2))) <= exp (-1 * t ^ 2)).
  { apply exp_le_compat. pose proof (pow2_ge_0 t). pose proof (pow2_ge_0 x).
    nra. }
  split; [nra|].
  apply (Rle_trans _ (1 * exp (-1 * (t ^ 2 * (1 + x ^ 2))))); [|lra].
  apply Rmult_le_compat_r; lra.
Qed.

Lemma kernel_t_as_stretched (t x : R) :
  kernel_t t x = -2 * gauss_fun t * eval (at_tx t x) stretched.
Proof.
  rewrite kernel_t_eq, gauss_fun_eq. cbn [stretched Neg eval].
  rewrite !at_tx_r, !at_tx_phi.
  replace (-1 * (t ^ 2 * (1 + x ^ 2)))
    with (-1 * t ^ 2 + IZR (-1) * (t * x) ^ 2) by (cbn; ring).
  rewrite exp_plus. ring.
Qed.

(** The square of the integral of [exp(-x^2)] from 0 to [T] is pi/4 up to
    [exp(-T^2)]. *)
Lemma gauss_squared (T v : R) :
  0 <= T -> is_RInt gauss_fun 0 T v ->
  0 <= v /\ PI / 4 - exp (-1 * T ^ 2) <= v * v <= PI / 4.
Proof.
  intros HT Hv.
  destruct kernel_integral_exists as [B HB].
  assert (C0 : forall x, 0 <= x <= T -> continuity_pt gauss_fun x)
    by (intros; apply eval_continuous).
  set (P := primitive HT (FTC_P1 HT C0)).
  assert (HP : forall x, 0 <= x <= T -> derivable_pt_lim P x (gauss_fun x))
    by (intros x Hx; apply RiemannInt_P28; exact Hx).
  assert (HPv : v = P T - P 0)
    by (destruct Hv as [pr <-]; apply RiemannInt_P20).
  assert (HP0 : P 0 = 0).
  { unfold P, primitive. destruct (Rle_dec 0 0) as [h0|h0]; [|lra].
    destruct (Rle_dec 0 T) as [h1|h1]; [|contradiction].
    apply RiemannInt_P9. }
  assert (Hv0 : 0 <= v).
  { replace 0 with (0 * (T - 0)) by ring.
    apply (is_RInt_le (fun _ => 0) gauss_fun 0 T); [exact HT| | |exact Hv].
    - intros x _. rewrite gauss_fun_eq. left. apply exp_pos.
    - apply is_RInt_const. }
  assert (HD : forall t, 0 <= t <= T ->
                 is_RInt (kernel_t t) 0 1 (-2 * gauss_fun t * P t)).
  { intros t Ht.
    apply (is_RInt_ext
             (fun x => -2 * gauss_fun t * eval (at_tx t x) stretched));
      [lra| |].
    { intros x _. symmetry. apply kernel_t_as_stretched. }
    apply is_RInt_scale; [lra|].
    replace (P t) with (P (t * 1) - P (t * 0))
      by (rewrite Rmult_1_r, Rmult_0_r, HP0; ring).
    apply (is_RInt_FTC _ (fun x => P (t * x))); [lra| |].
    - intros x Hx.
      replace (eval (at_tx t x) stretched) with (gauss_fun (t * x) * t).
      + apply (derivable_pt_lim_comp (fun y => t * y) P).
        * apply derivable_pt_lim_linear.
        * apply HP. nra.
      + rewrite gauss_fun_eq. cbn [stretched Neg eval].
        rewrite !at_tx_r, !at_tx_phi. ring.
    - intros x _. apply eval_continuous. }
  set (Phi := fun t => P t * P t + B t).
  assert (HPhi : forall t, 0 <= t <= T -> derivable_pt_lim Phi t 0).
  { intros t Ht.
    replace 0 with ((gauss_fun t * P t + P t * gauss_fun t)
                    + -2 * gauss_fun t * P t) by ring.
    apply (derivable_pt_lim_plus (fun s => P s * P s) B).
    - apply (derivable_pt_lim_mult P P); now apply HP.
    - apply (derivable_under_integral kernel kernel_t kernel_tt B t _
               (2 + 8 * (Rabs t + 1) ^ 2)).
      + exact HB.
      + now apply HD.
      + intros x s _. apply kernel_derivable.
      + intros x s _. apply kernel_t_derivable.
      + intros x s. apply kernel_tt_bound. }
  assert (HB0 : B 0 = PI / 4).
  { apply (is_RInt_unique (kernel 0) 0 1); [apply HB|].
    replace (PI / 4) with (atan 1 - atan 0)
      by (rewrite atan_1, atan_0; ring).
    apply is_RInt_FTC; [lra| |].
    - intros x _. rewrite kernel_at_zero. apply derivable_pt_lim_atan.
    - intros x _. apply kernel_continuous. }
  assert (HBT : 0 <= B T <= exp (-1 * T ^ 2)).
  { destruct (is_RInt_bound (kernel T) 0 1 (B T) 0 (exp (-1 * T ^ 2)))
      as [H1 H2]; [lra| |apply HB|lra].
    intros x _. apply kernel_between. }
  assert (HPhiT : Phi T = Phi 0).
  { destruct HT as [HT|<-]; [|reflexivity].
    destruct (MVT_cor2 Phi (fun _ => 0) 0 T HT HPhi) as (c & Hc & _).
    lra. }
  unfold Phi in HPhiT. rewrite HP0, HB0 in HPhiT.
  rewrite HP0, Rminus_0_r in HPv. subst v.
  split; [exact Hv0|]. lra.
Qed.

Lemma tends_to_at_infinity_plus (g1 g2 : R -> R) (l1 l2 : R) :
  tends_to_at_infinity g1 l1 -> tends_to_at_infinity g2 l2 ->
  tends_to_at_infinity (fun b => g1 b + g2 b) (l1 + l2).
Proof.
  intros H1 H2 eps Heps.
  destruct (H1 (eps / 2)) as [b1 Hb1]; [lra|].
  destruct (H2 (eps / 2)) as [b2 Hb2]; [lra|].
  exists (Rmax b1 b2). intros b Hb.
  pose proof (Rmax_l b1 b2). pose proof (Rmax_r b1 b2).
  specialize (Hb1 b ltac:(lra)). specialize (Hb2 b ltac:(lra)).
  replace (g1 b + g2 b - (l1 + l2)) with ((g1 b - l1) + (g2 b - l2)) by ring.
  pose proof (Rabs_triang (g1 b - l1) (g2 b - l2)). lra.
Qed.

(** The Gaussian integral: the integral of [exp(-x^2)] from 0 to infinity
    is sqrt(pi) / 2. *)
Lemma gauss_integral : is_RInt_to_infinity gauss_fun 0 (sqrt PI / 2).
Proof.
  set (cont := fun (b x : R) (_ : 0 <= x <= b) =>
                 eval_continuous gauss Sym_r (fun _ => 0) x).
  set (J := fun b =>
              match Rle_dec 0 b with
              | left h => RiemannInt (continuity_implies_RiemannInt h (cont b))
              | right _ => 0
              end).
  assert (HJ : forall b, 0 <= b -> is_RInt gauss_fun 0 b (J b)).
  { intros b Hb. unfold J. destruct (Rle_dec 0 b) as [h|h]; [|contradiction].
    eexists. reflexivity. }
  exists J. split; [exact HJ|].
  set (s := sqrt PI / 2).
  assert (Hs : 0 < s).
  { unfold s. pose proof (sqrt_lt_R0 PI PI_RGT_0). lra. }
  assert (Hss : s * s = PI / 4).
  { unfold s. pose proof (sqrt_sqrt PI (Rlt_le _ _ PI_RGT_0)). nra. }
  assert (Hzero : tends_to_at_infinity (fun b => J b - s) 0).
  { apply (tends_to_zero_by_bound _ (4 / s)).
    - left. apply Rdiv_lt_0_compat; lra.
    - intros b Hb.
      destruct (gauss_squared b (J b)) as (H0 & Hlo & Hhi);
        [lra|apply HJ; lra|].
      pose proof (gauss_tail b Hb) as Htail.
      pose proof (exp_pos (-1 * b ^ 2)) as Hpos.
      assert (Hsq : 1 <= b ^ 2) by nra.
      assert (He : exp (-1 * b ^ 2) <= 4 / b).
      { apply (Rle_trans _ (b ^ 2 * exp (-1 * b ^ 2))); [|exact Htail].
        rewrite <- (Rmult_1_l (exp _)) at 1.
        apply Rmult_le_compat_r; lra. }
      assert (Hle : J b <= s) by nra.
      rewrite Rabs_left1 by lra.
      assert (Hprod : (s - J b) * s <= 4 / b) by nra.
      apply (Rmult_le_reg_r s); [exact Hs|].
      replace (4 / s / b * s) with (4 / b) by (field; lra).
      lra. }
  intros eps Heps. destruct (Hzero eps Heps) as [b0 Hb0].
  exists b0. intros b Hb. specialize (Hb0 b Hb).
  now rewrite Rminus_0_r in Hb0.
Qed.

Lemma r_gauss_vanishes :
  tends_to_at_infinity (fun t => -1 / 2 * eval (at_t t) r_gauss) 0.
Proof.
  apply (tends_to_zero_by_bound _ 4); [lra|]. intros t Ht.
  cbn [r_gauss gauss Neg eval]. rewrite at_t_r.
  pose proof (gauss_tail t Ht) as H.
  pose proof (exp_pos (-1 * t ^ 2)) as Hpos.
  assert (Hle : t * exp (-1 * t ^ 2) <= t ^ 2 * exp (-1 * t ^ 2)).
  { apply Rmult_le_compat_r; [lra|nra]. }
  assert (Hnn : 0 <= t * exp (-1 * t ^ 2)) by nra.
  rewrite Rabs_left1 by lra. lra.
Qed.

(** By parts: the integral of [r^2 exp(-r^2)] from 0 to infinity is
    sqrt(pi) / 4. *)
Lemma gauss_moment_value : is_RInt_to_infinity gauss_moment 0 (sqrt PI / 4).
Proof.
  destruct gauss_integral as (g & Hg & Hlim).
  set (F := fun t => -1 / 2 * eval (at_t t) r_gauss).
  exists (fun b => 1 / 2 * g b + (F b - F 0)). split.
  - intros b Hb.
    apply (is_RInt_ext
             (fun t => 1 / 2 * gauss_fun t
                       + -1 / 2 * eval (at_t t) (diff r_gauss Sym_r)));
      [exact Hb| |].
    { intros t _. rewrite gauss_moment_eq, gauss_fun_eq.
      cbn [r_gauss gauss Neg eval diff symbol_eqb Z.of_nat].
      rewrite at_t_r. cbn. field. }
    apply is_RInt_plus; [exact Hb| |].
    + apply is_RInt_scale; [exact Hb|]. now apply Hg.
    + apply is_RInt_FTC; [exact Hb| |].
      * intros x _. apply scaled_diff_sound.
      * intros x _. apply derivable_continuous_pt. eexists.
        apply (scaled_diff_sound (-1 / 2) (diff r_gauss Sym_r)).
  - replace (sqrt PI / 4) with (1 / 2 * (sqrt PI / 2) + (0 - F 0)).
    2:{ unfold F. cbn [r_gauss gauss Neg eval]. rewrite at_t_r. field. }
    apply tends_to_at_infinity_plus.
    + now apply tends_to_at_infinity_scale.
    + apply tends_to_at_infinity_minus, r_gauss_vanishes.
Qed.

(** ** Runs on small inputs *)

Example construct_zero :
  __init__ 0 = inl (ValueError "n must be at least 1.").
Proof. reflexivity. Qed.

Example construct_one :
  __init__ 1 = inr {| n := 1; r := Sym_r; phis := [Sym_phi 0] |}.
Proof. reflexivity. Qed.

Example construct_two :
  __init__ 2 = inr {| n := 2; r := Sym_r; phis := [Sym_phi 0] |}.
Proof. reflexivity. Qed.

Example parametrization_of_dimension_3 :
  fst (_cartesian_to_spherical (instance 3))
  = inr [[Mul (Sym Sym_r) (Cos (Sym (Sym_phi 0)));
          Mul (Mul (Sym Sym_r) (Sin (Sym (Sym_phi 0))))
            (Cos (Sym (Sym_phi 1)));
          Mul (Mul (Sym Sym_r) (Sin (Sym (Sym_phi 0))))
            (Sin (Sym (Sym_phi 1)))]].
Proof. reflexivity. Qed.

Example limits_of_dimension_4 :
  limits 2
  = [(Sym_r, Fin (Int 0), Oo);
     (Sym_phi 2, Fin (Int 0), Fin (Mul (Int 2) Pi));
     (Sym_phi 0, Fin (Int 0), Fin Pi);
     (Sym_phi 1, Fin (Int 0), Fin Pi)].
Proof. reflexivity. Qed.

(** The Jacobian in dimension 1, as in the usage notes of the module:
    [[cos(phi0), -r sin(phi0)], [sin(phi0), r cos(phi0)]]. *)
Example jacobian_of_dimension_1 (rho : env) :
  exists j,
    jacobian (instance 1) = (inr j, instance 1) /\
    map (map (eval rho)) j
    = [[cos (rho (Sym_phi 0)); - (rho Sym_r * sin (rho (Sym_phi 0)))];
       [sin (rho (Sym_phi 0)); rho Sym_r * cos (rho (Sym_phi 0))]].
Proof.
  exists (jacobian_entries 0). split; [apply (jacobian_run 1)|].
  cbn. repeat (f_equal; try ring).
Qed.

(** The cofactor expansion is the usual determinant in sizes 2 and 3. *)
Example det_R_2 (a b c d : R) :
  det_R 2 (fun i j => nth j (nth i [[a; b]; [c; d]] []) 0) = a * d - b * c.
Proof. unfold det_R. cbn. unfold signed. cbn. ring. Qed.

Example det_R_3 (a b c d e f g h k : R) :
  det_R 3 (fun i j => nth j (nth i [[a; b; c]; [d; e; f]; [g; h; k]] []) 0)
  = a * (e * k - f * h) - b * (d * k - f * g) + c * (d * h - e * g).
Proof. unfold det_R. cbn. unfold signed. cbn. ring. Qed.

(** ** The value of [doit] *)

Section Values.

Variable simplify : expr -> expr.
Hypothesis simplify_sound :
  forall (rho : env) (e : expr), eval rho (simplify e) = eval rho e.

Lemma doit_planar_denotes (dim : Z) :
  (dim = 1 \/ dim = 2)%Z ->
  exists v,
    doit simplify (instance dim) = (inr (post_process dim v), instance dim) /\
    forall rho, denotes rho v PI.
Proof.
  intros Hdim. eexists. split; [apply doit_run|].
  intros rho. constructor.
  replace (limits (Z.to_nat (dim - 2))) with (limits 0) by (f_equal; lia).
  apply integral_planar. intros rho'.
  rewrite (eval_jacobian_det simplify simplify_sound).
  destruct Hdim as [-> | ->]; simpl; ring.
Qed.

Lemma doit_spatial_denotes :
  exists v,
    doit simplify (instance 3) = (inr v, instance 3) /\
    forall rho, denotes rho v (PI * sqrt PI).
Proof.
  eexists. split; [apply doit_run|].
  intros rho. unfold post_process. cbn [Z.eqb Pos.eqb].
  constructor.
  change (Z.to_nat (3 - 2)) with 1%nat.
  replace (PI * sqrt PI) with (4 * PI * (sqrt PI / 4)) by field.
  apply integral_spatial; [|exact gauss_moment_value]. intros rho'.
  rewrite (eval_jacobian_det simplify simplify_sound).
  simpl. ring.
Qed.

(** C1, amended: [doit] returns sqrt(pi) for n = 1 (the square root of the
    planar integral), pi for n = 2, and pi^(3/2) = pi sqrt(pi) for n = 3. *)
Theorem doit_values :
  (exists self v,
      __init__ 1 = inr self /\
      doit simplify self = (inr v, self) /\
      forall rho x, denotes rho v x <-> x = sqrt PI) /\
  (exists self v,
      __init__ 2 = inr self /\
      doit simplify self = (inr v, self) /\
      forall rho x, denotes rho v x <-> x = PI) /\
  (exists self v,
      __init__ 3 = inr self /\
      doit simplify self = (inr v, self) /\
      forall rho x, denotes rho v x <-> x = PI * sqrt PI).
Proof.
  split; [|split].
  - destruct (doit_planar_denotes 1) as (v & Hrun & Hv); [now left|].
    exists (instance 1), (sqrt_of v).
    split; [reflexivity|]. split; [exact Hrun|].
    intros rho x.
    assert (Hs : denotes rho (sqrt_of v) (sqrt PI)).
    { constructor; [apply Hv|]. left. apply PI_RGT_0. }
    split.
    + intros Hx. exact (denotes_unique rho _ _ _ Hx Hs).
    + now intros ->.
  - destruct (doit_planar_denotes 2) as (v & Hrun & Hv); [now right|].
    exists (instance 2), v.
    split; [reflexivity|]. split; [exact Hrun|].
    intros rho x. split.
    + intros Hx. exact (denotes_unique rho _ _ _ Hx (Hv rho)).
    + intros ->. apply Hv.
  - destruct doit_spatial_denotes as (v & Hrun & Hv).
    exists (instance 3), v.
    split; [reflexivity|]. split; [exact Hrun|].
    intros rho x. split.
    + intros Hx. exact (denotes_unique rho _ _ _ Hx (Hv rho)).
    + intros ->. apply Hv.
Qed.

End Values.

Lemma doit_values_witness :
  (forall (rho : env) (e : expr), eval rho e = eval rho e) /\
  exists self v,
    __init__ 3 = inr self /\
    doit (fun e => e) self = (inr v, self) /\
    forall rho x, denotes rho v x <-> x = PI * sqrt PI.
Proof.
  split; [reflexivity|].
  apply (doit_values (fun e => e)). reflexivity.
Defined.

Lemma pi_sqrt_pi_not_pi_squared : PI * sqrt PI <> PI ^ 2.
Proof.
  pose proof PI2_1 as H2. pose proof (sqrt_sqrt PI ltac:(lra)) as Hs.
  pose proof (sqrt_pos PI) as Hp. intros E.
  assert (E' : sqrt PI = PI) by nra.
  rewrite E' in Hs. nra.
Qed.

(** C1 as stated fails in dimension 3: the result there is pi sqrt(pi), and
    it is not pi^2. *)
Lemma doit_dimension_3_counterexample :
  exists self v,
    __init__ 3 = inr self /\
    doit (fun e => e) self = (inr v, self) /\
    (forall rho, denotes rho v (PI * sqrt PI)) /\
    (forall rho, ~ denotes rho v (PI ^ 2)).
Proof.
  destruct (doit_spatial_denotes (fun e => e) (fun _ _ => eq_refl))
    as (v & Hrun & Hv).
  exists (instance 3), v.
  split; [reflexivity|]. split; [exact Hrun|]. split; [exact Hv|].
  intros rho Hx. apply pi_sqrt_pi_not_pi_squared.
  exact (denotes_unique rho _ _ _ (Hv rho) Hx).
Qed.

(** * Further properties *)

(** ** Radial moments *)

Lemma two_step_induction (P : nat -> Prop) :
  P 0%nat -> P 1%nat -> (forall k, P k -> P (S (S k))) -> forall k, P k.
Proof.
  intros H0 H1 Hstep k.
  assert (H : P k /\ P (S k)).
  { induction k as [|k [IH1 IH2]]; [now split|]. split; [exact IH2|].
    now apply Hstep. }
  exact (proj1 H).
Qed.

(** Every power is dominated by the exponential. *)
Lemma pow_le_exp (j : nat) :
  exists c, 0 <= c /\ forall u, 0 <= u -> u ^ j <= c * exp u.
Proof.
  induction j as [|j (c & Hc & IH)].
  - exists 1. split; [lra|]. intros u Hu.
    pose proof (exp_ineq1_le u). simpl. lra.
  - exists (2 ^ S j * c). split.
    { apply Rmult_le_pos; [|exact Hc]. apply pow_le. lra. }
    intros u Hu.
    assert (Hhalf : 0 <= u / 2) by lra.
    pose proof (IH (u / 2) Hhalf) as Hj.
    pose proof (exp_ineq1_le (u / 2)) as H1.
    pose proof (exp_pos (u / 2)) as Hpos.
    assert (Hexp : exp u = exp (u / 2) * exp (u / 2)).
    { rewrite <- exp_plus. f_equal. field. }
    assert (Hpow : u ^ S j = 2 ^ S j * ((u / 2) * (u / 2) ^ j)).
    { replace u with (2 * (u / 2)) at 1 by field.
      rewrite Rpow_mult_distr. reflexivity. }
    rewrite Hpow, Hexp, Rmult_assoc.
    apply Rmult_le_compat_l; [apply pow_le; lra|].
    assert (Hpj : 0 <= (u / 2) ^ j) by (apply pow_le; exact Hhalf).
    assert (Hce : 0 <= c * exp (u / 2)) by (apply Rmult_le_pos; lra).
    apply (Rle_trans _ (exp (u / 2) * (c * exp (u / 2)))); [|lra].
    apply Rmult_le_compat; lra.
Qed.

(** [t^j exp(-t^2)] is at most [c / t] for t >= 1. *)
Lemma moment_tail (j : nat) :
  exists c, 0 <= c /\
    forall t, 1 <= t -> t ^ j * exp (-1 * t ^ 2) <= c / t.
Proof.
  destruct (pow_le_exp (S j)) as (c & Hc & H).
  exists c. split; [exact Hc|]. intros t Ht.
  assert (Hsq : 0 <= t <= t ^ 2) by nra.
  pose proof (pow_incr t (t ^ 2) (S j) Hsq) as Hinc.
  pose proof (H (t ^ 2) ltac:(lra)) as Hle.
  pose proof (exp_pos (-1 * t ^ 2)) as Hpos.
  assert (Hinv : exp (t ^ 2) * exp (-1 * t ^ 2) = 1).
  { rewrite <- exp_plus. replace (t ^ 2 + -1 * t ^ 2) with 0 by ring.
    apply exp_0. }
  assert (Hb : t ^ S j * exp (-1 * t ^ 2) <= c).
  { apply (Rle_trans _ (c * exp (t ^ 2) * exp (-1 * t ^ 2))).
    - apply Rmult_le_compat_r; lra.
    - rewrite Rmult_assoc, Hinv. lra. }
  apply (Rmult_le_reg_r t); [lra|].
  replace (c / t * t) with c by (field; lra).
  replace (t ^ j * exp (-1 * t ^ 2) * t) with (t ^ S j * exp (-1 * t ^ 2))
    by (simpl; ring).
  exact Hb.
Qed.

Lemma moment_primitive_vanishes (k : nat) :
  tends_to_at_infinity
    (fun t => -1 / 2 * eval (at_t t) (moment_primitive k)) 0.
Proof.
  destruct (moment_tail (S k)) as (c & Hc & H).
  apply (tends_to_zero_by_bound _ c); [exact Hc|]. intros t Ht.
  cbn [moment_primitive gauss Neg eval]. rewrite at_t_r.
  pose proof (H t Ht) as Hle.
  pose proof (exp_pos (-1 * t ^ 2)) as Hpos.
  assert (Hnn : 0 <= t ^ S k * exp (-1 * t ^ 2)).
  { apply Rmult_le_pos; [apply pow_le|]; lra. }
  rewrite Rabs_left1 by lra. lra.
Qed.

(** By parts: the moment of order k + 2 is (k + 1) / 2 times the moment of
    order k. *)
Lemma radial_moment_step (k : nat) (l : R) :
  is_RInt_to_infinity (fun t => t ^ k * exp (-1 * t ^ 2)) 0 l ->
  is_RInt_to_infinity (fun t => t ^ S (S k) * exp (-1 * t ^ 2)) 0
    ((INR k + 1) / 2 * l).
Proof.
  intros (g & Hg & Hlim).
  set (F := fun t => -1 / 2 * eval (at_t t) (moment_primitive k)).
  exists (fun b => (INR k + 1) / 2 * g b + (F b - F 0)). split.
  - intros b Hb.
    apply (is_RInt_ext
             (fun t => (INR k + 1) / 2 * (t ^ k * exp (-1 * t ^ 2))
                       + -1 / 2 * eval (at_t t)
                                    (diff (moment_primitive k) Sym_r)));
      [exact Hb| |].
    { intros t _.
      cbn [moment_primitive gauss Neg eval diff symbol_eqb].
      rewrite at_t_r, <- INR_IZR_INZ, S_INR. cbn [Z.of_nat IZR]. simpl pow.
      change (IZR (Z.pos 2)) with 2. change (IZR (Z.neg 1)) with (-1).
      change (IZR 1) with 1. change (IZR 0) with 0. field. }
    apply is_RInt_plus; [exact Hb| |].
    + apply is_RInt_scale; [exact Hb|]. now apply Hg.
    + apply is_RInt_FTC; [exact Hb| |].
      * intros x _. apply scaled_diff_sound.
      * intros x _. apply derivable_continuous_pt. eexists.
        apply (scaled_diff_sound (-1 / 2)
                 (diff (moment_primitive k) Sym_r)).
  - replace ((INR k + 1) / 2 * l)
      with ((INR k + 1) / 2 * l + (0 - F 0)).
    2:{ unfold F. cbn [moment_primitive gauss Neg eval]. rewrite at_t_r.
        simpl pow. ring. }
    apply tends_to_at_infinity_plus.
    + now apply tends_to_at_infinity_scale.
    + apply tends_to_at_infinity_minus, moment_primitive_vanishes.
Qed.

Lemma radial_moment_integral (k : nat) :
  is_RInt_to_infinity (fun t => t ^ k * exp (-1 * t ^ 2)) 0
    (radial_moment k).
Proof.
  induction k as [| |k IH] using two_step_induction.
  - replace (radial_moment 0) with (1 * (sqrt PI / 2)) by (simpl; ring).
    apply (is_RInt_to_infinity_scale 1 gauss_fun); [|exact gauss_integral].
    intros t _. rewrite gauss_fun_eq. simpl. ring.
  - replace (radial_moment 1) with (1 * (1 / 2)) by (simpl; ring).
    apply (is_RInt_to_infinity_scale 1
             (fun t => eval (upd (fun _ => 0) Sym_r t)
                         (integrand (Sym Sym_r)))).
    + intros t _. unfold integrand. cbn [Neg eval]. rewrite upd_same.
      simpl. ring.
    + now apply radial_integral_planar.
  - now apply radial_moment_step.
Qed.

(** ** Integrals of powers of the sine *)

Lemma at_phi (x : R) : at_tx 0 x (Sym_phi 0) = x.
Proof. reflexivity. Qed.

Lemma wallis_step (k : nat) (l : R) :
  is_RInt (fun t => sin t ^ k) 0 PI l ->
  is_RInt (fun t => sin t ^ S (S k)) 0 PI ((INR k + 1) / (INR k + 2) * l).
Proof.
  intros Hl.
  assert (HPI : 0 <= PI) by (left; apply PI_RGT_0).
  assert (Hk : 0 < INR k + 2) by (pose proof (pos_INR k); lra).
  set (F := fun t => 1 / (INR k + 2)
                     * eval (at_tx 0 t) (wallis_primitive k)).
  replace ((INR k + 1) / (INR k + 2) * l)
    with ((INR k + 1) / (INR k + 2) * l + (F PI - F 0)).
  2:{ unfold F. cbn [wallis_primitive Neg eval]. rewrite !at_phi.
      rewrite sin_PI, sin_0. simpl pow. ring. }
  apply (is_RInt_ext
           (fun t => (INR k + 1) / (INR k + 2) * sin t ^ k
                     + 1 / (INR k + 2)
                       * eval (at_tx 0 t)
                           (diff (wallis_primitive k) (Sym_phi 0))));
    [exact HPI| |].
  { intros t _.
    cbn [wallis_primitive Neg eval diff symbol_eqb Nat.eqb].
    rewrite !at_phi, <- INR_IZR_INZ, S_INR.
    change (IZR (Z.neg 1)) with (-1).
    change (IZR 1) with 1. change (IZR 0) with 0.
    pose proof (sin2_cos2 t) as H. unfold Rsqr in H.
    set (s := sin t) in *. set (c := cos t) in *. set (p := s ^ k).
    replace (s ^ S (S k)) with (s * s * p) by (unfold p; simpl; ring).
    replace (s ^ S k) with (s * p) by (unfold p; simpl; ring).
    replace ((0 * c + -1 * (-1 * s * 1)) * (s * p)
             + -1 * c * ((INR k + 1) * p * (c * 1)))
      with (s * s * p - (INR k + 1) * p * (c * c)) by ring.
    replace (c * c) with (1 - s * s) by lra.
    field. lra. }
  apply is_RInt_plus; [exact HPI| |].
  - now apply is_RInt_scale.
  - apply is_RInt_FTC; [exact HPI| |].
    + intros x _.
      apply (scaled_diff_sound (1 / (INR k + 2)) (wallis_primitive k)
               (Sym_phi 0) (at_t 0) x).
    + intros x _. apply derivable_continuous_pt. eexists.
      apply (scaled_diff_sound (1 / (INR k + 2))
               (diff (wallis_primitive k) (Sym_phi 0))
               (Sym_phi 0) (at_t 0) x).
Qed.

Lemma wallis_integral (k : nat) : is_RInt (fun t => sin t ^ k) 0 PI (wallis k).
Proof.
  assert (HPI : 0 <= PI) by (left; apply PI_RGT_0).
  induction k as [| |k IH] using two_step_induction.
  - replace (wallis 0) with (1 * (PI - 0)) by (simpl; ring).
    apply (is_RInt_const 1).
  - set (F := fun t => -1 * eval (at_tx 0 t) (Cos (Sym (Sym_phi 0)))).
    replace (wallis 1) with (F PI - F 0).
    2:{ unfold F. cbn [eval]. rewrite !at_phi, cos_PI, cos_0. simpl. ring. }
    apply is_RInt_FTC; [exact HPI| |].
    + intros x _.
      replace (sin x ^ 1)
        with (-1 * eval (at_tx 0 x)
                     (diff (Cos (Sym (Sym_phi 0))) (Sym_phi 0))).
      * apply (scaled_diff_sound (-1) (Cos (Sym (Sym_phi 0)))
                 (Sym_phi 0) (at_t 0) x).
      * cbn [Neg eval diff symbol_eqb Nat.eqb]. rewrite at_phi. simpl. ring.
    + intros x _.
      apply (continuity_pt_ext
               (fun t => eval (at_tx 0 t)
                           (Pow (Sin (Sym (Sym_phi 0))) 1))).
      * intros t. reflexivity.
      * apply eval_continuous.
  - now apply wallis_step.
Qed.

(** ** The iterated integral in every dimension *)

Lemma angular_product_upd (e : nat -> nat) (l : list nat) (rho : env)
  (x : symbol) (t : R) :
  (forall i, In i l -> Sym_phi i <> x) ->
  angular_product e l (upd rho x t) = angular_product e l rho.
Proof.
  induction l as [|i l IH]; intros H; [reflexivity|].
  cbn [angular_product fold_right].
  fold (angular_product e l (upd rho x t)) (angular_product e l rho).
  rewrite IH by (intros j Hj; apply H; now right).
  rewrite upd_other by (apply H; now left). reflexivity.
Qed.

Lemma fold_right_scale (f : nat -> R) (l : list nat) (c : R) :
  fold_right (fun i acc => f i * acc) c l
  = fold_right (fun i acc => f i * acc) 1 l * c.
Proof. induction l as [|i l IH]; simpl; [ring|]. rewrite IH. ring. Qed.

Lemma Rprod_seq (m : nat) (f : nat -> R) :
  Rprod m f = fold_right (fun i acc => f i * acc) 1 (seq 0 m).
Proof.
  induction m as [|m IH]; [reflexivity|].
  rewrite seq_S, fold_right_app. cbn [Rprod fold_right Nat.add].
  rewrite fold_right_scale, <- IH. ring.
Qed.

Lemma eval_sine_powers_angular (rho : env) (m : nat) :
  eval rho (sine_powers m)
  = angular_product (fun i => (m - i)%nat) (seq 0 m) rho.
Proof. rewrite eval_sine_powers, Rprod_seq. reflexivity. Qed.

(** Integrating a product of powers of sines, one angle after the other,
    replaces each power by its integral. *)
Lemma integral_angles (e : nat -> nat) (l : list nat) :
  NoDup l ->
  forall (c : R) (rho : env),
    integral (fun rho' => c * angular_product e l rho') (map half_turn l)
      rho (c * wallis_product e l).
Proof.
  induction l as [|i l IH]; intros Hnd c rho.
  - exact (@integral_nil (fun rho' => c * angular_product e [] rho') rho).
  - inversion Hnd as [|i' l' Hi Hl]; subst.
    cbn [map wallis_product fold_right]. fold (wallis_product e l).
    replace (c * (wallis (e i) * wallis_product e l))
      with (c * wallis (e i) * wallis_product e l) by ring.
    apply integral_cons
      with (G := fun rho' => c * wallis (e i) * angular_product e l rho').
    + intros rho'. unfold half_turn. cbn [integral_over eval].
      apply (is_RInt_ext
               (fun t => c * angular_product e l rho' * sin t ^ e i)).
      { left. apply PI_RGT_0. }
      { intros t _. cbn [angular_product fold_right].
        fold (angular_product e l (upd rho' (Sym_phi i) t)).
        rewrite angular_product_upd, upd_same; [ring|].
        intros j Hj [= ->]. contradiction. }
      replace (c * wallis (e i) * angular_product e l rho')
        with (c * angular_product e l rho' * wallis (e i)) by ring.
      apply is_RInt_scale; [left; apply PI_RGT_0|apply wallis_integral].
    + now apply IH.
Qed.

(** The integral [doit] asks for, in dimension m + 2, when the determinant
    is the volume element. *)
Lemma integral_volume (d : expr) (m : nat) (rho : env) :
  (forall rho', eval rho' d = rho' Sym_r ^ S m * eval rho' (sine_powers m)) ->
  integral (fun rho' => eval rho' (integrand d)) (limits m) rho
    (radial_moment (S m) * (2 * PI)
     * wallis_product (fun i => (m - i)%nat) (seq 0 m)).
Proof.
  intros Hd. unfold limits, symbols_phi0_upto. rewrite map_map.
  change (map (fun x => (Sym_phi x, Fin (Int 0), Fin Pi)) (seq 0 m))
    with (map half_turn (seq 0 m)).
  set (e := fun i => (m - i)%nat).
  assert (Hfresh : forall x, (forall i, In i (seq 0 m) -> Sym_phi i <> x) ->
                   forall rho' t,
                     angular_product e (seq 0 m) (upd rho' x t)
                     = angular_product e (seq 0 m) rho')
    by (intros x Hx rho' t; now apply angular_product_upd).
  apply integral_cons
    with (G := fun rho' => radial_moment (S m)
                           * angular_product e (seq 0 m) rho').
  { intros rho'. cbn [integral_over eval].
    replace (radial_moment (S m) * angular_product e (seq 0 m) rho')
      with (angular_product e (seq 0 m) rho' * radial_moment (S m)) by ring.
    apply (is_RInt_to_infinity_scale _
             (fun t => t ^ S m * exp (-1 * t ^ 2)));
      [|apply radial_moment_integral].
    intros t _. unfold integrand. cbn [Neg eval].
    rewrite Hd, eval_sine_powers_angular, upd_same. fold e.
    rewrite Hfresh by (intros i _; discriminate). ring. }
  apply integral_cons
    with (G := fun rho' => radial_moment (S m) * (2 * PI)
                           * angular_product e (seq 0 m) rho').
  { intros rho'. cbn [integral_over eval].
    apply (is_RInt_ext
             (fun _ => radial_moment (S m)
                       * angular_product e (seq 0 m) rho')).
    { pose proof PI_RGT_0. change (IZR 0) with 0. change (IZR 2) with 2.
      lra. }
    { intros t _. rewrite Hfresh; [reflexivity|].
      intros i Hi [= ->]. apply in_seq in Hi. lia. }
    replace (radial_moment (S m) * (2 * PI)
             * angular_product e (seq 0 m) rho')
      with (radial_moment (S m) * angular_product e (seq 0 m) rho'
            * (IZR 2 * PI - IZR 0)) by (simpl; ring).
    apply is_RInt_const. }
  apply integral_angles. apply seq_NoDup.
Qed.

Lemma wallis_radial (k : nat) :
  wallis k * radial_moment (S k) = sqrt PI * radial_moment k.
Proof.
  assert (Hpi : sqrt PI * sqrt PI = PI)
    by (apply sqrt_sqrt; left; apply PI_RGT_0).
  induction k as [| |k IH] using two_step_induction.
  - simpl. lra.
  - simpl. lra.
  - change (wallis (S (S k)))
      with ((INR k + 1) / (INR k + 2) * wallis k).
    change (radial_moment (S (S (S k))))
      with ((INR (S k) + 1) / 2 * radial_moment (S k)).
    change (radial_moment (S (S k)))
      with ((INR k + 1) / 2 * radial_moment k).
    rewrite S_INR. pose proof (pos_INR k) as Hk.
    replace ((INR k + 1) / (INR k + 2) * wallis k
             * ((INR k + 1 + 1) / 2 * radial_moment (S k)))
      with ((INR k + 1) / 2 * (wallis k * radial_moment (S k)))
      by (field; lra).
    rewrite IH. ring.
Qed.

Lemma wallis_product_S (m : nat) :
  wallis_product (fun i => (S m - i)%nat) (seq 0 (S m))
  = wallis (S m) * wallis_product (fun i => (m - i)%nat) (seq 0 m).
Proof.
  change (seq 0 (S m)) with (0%nat :: seq 1 m).
  rewrite <- seq_shift. cbn [wallis_product fold_right]. f_equal.
  generalize (seq 0 m) as l. induction l as [|i l IH]; [reflexivity|].
  cbn [map fold_right]. now rewrite IH.
Qed.

(** The value of the integral in dimension m + 2 is pi^((m + 2) / 2). *)
Lemma integral_volume_value (m : nat) :
  radial_moment (S m) * (2 * PI)
  * wallis_product (fun i => (m - i)%nat) (seq 0 m)
  = sqrt PI ^ S (S m).
Proof.
  assert (Hpi : sqrt PI * sqrt PI = PI)
    by (apply sqrt_sqrt; left; apply PI_RGT_0).
  induction m as [|m IH].
  - simpl. lra.
  - rewrite wallis_product_S.
    replace (radial_moment (S (S m)) * (2 * PI)
             * (wallis (S m)
                * wallis_product (fun i => (m - i)%nat) (seq 0 m)))
      with (wallis (S m) * radial_moment (S (S m)) * (2 * PI)
            * wallis_product (fun i => (m - i)%nat) (seq 0 m)) by ring.
    rewrite wallis_radial.
    replace (sqrt PI * radial_moment (S m) * (2 * PI)
             * wallis_product (fun i => (m - i)%nat) (seq 0 m))
      with (sqrt PI
            * (radial_moment (S m) * (2 * PI)
               * wallis_product (fun i => (m - i)%nat) (seq 0 m))) by ring.
    rewrite IH. reflexivity.
Qed.

Section EveryDimension.

Variable simplify : expr -> expr.
Hypothesis simplify_sound :
  forall (rho : env) (e : expr), eval rho (simplify e) = eval rho e.

(** X1: for every n >= 1 [doit] returns the n-dimensional Gaussian
    integral pi^(n/2), that is sqrt(pi)^n: for n >= 2 it is the value of the
    iterated integral, for n = 1 its square root in dimension 2. *)
Theorem doit_gaussian_integral (dim : Z) :
  (1 <= dim)%Z ->
  exists self v,
    __init__ dim = inr self /\
    doit simplify self = (inr v, self) /\
    forall rho x, denotes rho v x <-> x = sqrt PI ^ Z.to_nat dim.
Proof.
  intros H. set (m := Z.to_nat (dim - 2)).
  set (raw := integrate
                (integrand
                   (simplify (det_expr (components dim)
                                (entry (jacobian_entries m)))))
                (limits m)).
  assert (Hraw : forall rho, denotes rho raw (sqrt PI ^ S (S m))).
  { intros rho. constructor. rewrite <- integral_volume_value.
    apply integral_volume. intros rho'.
    rewrite (eval_jacobian_det simplify simplify_sound).
    unfold components, volume_element. fold m.
    replace (S (S m) - 1)%nat with (S m) by lia.
    replace (S (S m) - 2)%nat with m by lia.
    reflexivity. }
  exists (instance dim), (post_process dim raw).
  split; [apply (__init___ok dim H)|]. split; [apply doit_run|].
  intros rho x.
  assert (Hv : denotes rho (post_process dim raw) (sqrt PI ^ Z.to_nat dim)).
  { unfold post_process. destruct (Z.eqb_spec dim 1) as [E|E].
    - replace (sqrt PI ^ Z.to_nat dim) with (sqrt (sqrt PI ^ S (S m))).
      + constructor; [apply Hraw|]. apply pow_le, sqrt_pos.
      + subst dim. change (Z.to_nat 1) with 1%nat.
        change m with 0%nat. simpl pow.
        rewrite Rmult_1_r, sqrt_sqrt by (left; apply PI_RGT_0). ring.
    - replace (Z.to_nat dim) with (S (S m)) by (unfold m; lia).
      apply Hraw. }
  split.
  - intros Hx. exact (denotes_unique rho _ _ _ Hx Hv).
  - now intros ->.
Qed.

End EveryDimension.

Lemma doit_gaussian_integral_witness :
  exists self v,
    __init__ 5 = inr self /\
    doit (fun e => e) self = (inr v, self) /\
    forall rho x, denotes rho v x <-> x = sqrt PI ^ 5.
Proof.
  apply (doit_gaussian_integral (fun e => e) (fun _ _ => eq_refl) 5). lia.
Defined.

(** ** The components of the parametrization *)

Lemma eval_coords (rho : env) (m i : nat) :
  (i <= m)%nat ->
  eval rho (nth i (coords m) (Int 0))
  = rho Sym_r * Rprod i (fun k => sin (rho (Sym_phi k)))
    * cos (rho (Sym_phi i)).
Proof.
  revert i. induction m as [|m IH]; intros i Hi.
  - replace i with 0%nat by lia. simpl. ring.
  - destruct (coords_snoc m) as (prefix & Em & Hlen & ES).
    destruct (Nat.eq_dec i (S m)) as [->|Hne].
    + rewrite ES, app_nth2, Hlen, Nat.sub_diag by lia.
      cbn [nth eval]. rewrite eval_last_coords. ring.
    + rewrite <- IH by lia.
      rewrite ES, Em, !app_nth1 by lia. reflexivity.
Qed.

(** X2: for every n >= 1 the components are, up to algebraic equality,
    x_i = r sin(phi0) ... sin(phi_{i-1}) cos(phi_i) for every i but the
    last, and x_last = r sin(phi0) ... sin(phi_{last-1}). *)
Theorem parametrization_components (dim : Z) :
  (1 <= dim)%Z ->
  exists self xs,
    __init__ dim = inr self /\
    _cartesian_to_spherical self = (inr [xs], self) /\
    forall rho : env,
      (forall i, (S i < length xs)%nat ->
         eval rho (nth i xs (Int 0))
         = rho (r self) * Rprod i (fun k => sin (rho (Sym_phi k)))
           * cos (rho (Sym_phi i))) /\
      eval rho (last xs (Int 0))
      = rho (r self)
        * Rprod (pred (length xs)) (fun k => sin (rho (Sym_phi k))).
Proof.
  intros H. exists (instance dim), (coords (Z.to_nat (dim - 2))).
  split; [apply (__init___ok dim H)|].
  split; [apply _cartesian_to_spherical_run|].
  intros rho. rewrite coords_length. split.
  - intros i Hi. apply eval_coords. lia.
  - apply eval_last_coords.
Qed.

Lemma parametrization_components_witness :
  exists self xs,
    __init__ 4 = inr self /\
    _cartesian_to_spherical self = (inr [xs], self) /\
    forall rho : env,
      (forall i, (S i < length xs)%nat ->
         eval rho (nth i xs (Int 0))
         = rho (r self) * Rprod i (fun k => sin (rho (Sym_phi k)))
           * cos (rho (Sym_phi i))) /\
      eval rho (last xs (Int 0))
      = rho (r self)
        * Rprod (pred (length xs)) (fun k => sin (rho (Sym_phi k))).
Proof. apply (parametrization_components 4). lia. Defined.

Lemma coords_linear_in_r (m : nat) (x : expr) :
  In x (coords m) ->
  forall (rho : env) (t : R),
    eval (upd rho Sym_r t) x = t * eval (upd rho Sym_r 1) x.
Proof.
  revert x. induction m as [|m IH]; intros x Hx rho t.
  - simpl in Hx. destruct Hx as [<-|[<-|[]]]; cbn [eval];
      rewrite !upd_same, !upd_other by discriminate; ring.
  - assert (Hold : In (last (coords m) (Int 0)) (coords m)).
    { destruct (coords_snoc m) as (prefix & E & _).
      rewrite E at 2. apply in_or_app. right. now left. }
    destruct (coords_snoc m) as (prefix & Em & _ & ES).
    rewrite ES in Hx. apply in_app_or in Hx as [Hx|[<-|[<-|[]]]].
    + apply IH. rewrite Em. apply in_or_app. now left.
    + cbn [eval]. rewrite (IH _ Hold rho t).
      rewrite !upd_other by discriminate. ring.
    + cbn [eval]. rewrite (IH _ Hold rho t).
      rewrite !upd_other by discriminate. ring.
Qed.

(** X3: every component is r times its value at r = 1: the parametrization
    is the radius times a point that depends on the angles only. *)
Theorem parametrization_linear_in_r (dim : Z) :
  (1 <= dim)%Z ->
  exists self xs,
    __init__ dim = inr self /\
    _cartesian_to_spherical self = (inr [xs], self) /\
    forall x, In x xs ->
      forall (rho : env) (t : R),
        eval (upd rho (r self) t) x = t * eval (upd rho (r self) 1) x.
Proof.
  intros H. exists (instance dim), (coords (Z.to_nat (dim - 2))).
  split; [apply (__init___ok dim H)|].
  split; [apply _cartesian_to_spherical_run|].
  apply coords_linear_in_r.
Qed.

Lemma parametrization_linear_in_r_witness :
  exists self xs,
    __init__ 3 = inr self /\
    _cartesian_to_spherical self = (inr [xs], self) /\
    forall x, In x xs ->
      forall (rho : env) (t : R),
        eval (upd rho (r self) t) x = t * eval (upd rho (r self) 1) x.
Proof. apply (parametrization_linear_in_r 3). lia. Defined.

(** ** The shape of the Jacobian *)

(** Component i mentions the angles phi_0 .. phi_i only. *)
Lemma coords_mentions (m i k : nat) :
  (i < S (S m))%nat ->
  mentions (Sym_phi k) (nth i (coords m) (Int 0)) = true -> (k <= i)%nat.
Proof.
  revert i. induction m as [|m IH]; intros i Hi Hm.
  - destruct i as [|[|i]]; [| |lia]; cbn in Hm;
      destruct k; [lia|discriminate|lia|discriminate].
  - assert (Hold : mentions (Sym_phi k) (last (coords m) (Int 0)) = true ->
                   (k <= m)%nat).
    { intros Hk. destruct (Nat.le_gt_cases k m) as [Hle|Hgt]; [exact Hle|].
      rewrite (coords_fresh m k) in Hk; [discriminate|lia|].
      destruct (coords_snoc m) as (prefix & E & _).
      rewrite E at 2. apply in_or_app. right. now left. }
    destruct (coords_snoc m) as (prefix & Em & Hlen & ES).
    destruct (Nat.lt_ge_cases i (S m)) as [Hlt|Hge].
    + apply IH; [lia|].
      rewrite ES in Hm. rewrite Em. rewrite app_nth1 in * by lia. exact Hm.
    + rewrite ES, app_nth2, Hlen in Hm by lia.
      assert (Hcase : (i - S m = 0 \/ i - S m = 1)%nat) by lia.
      destruct Hcase as [E|E]; rewrite E in Hm;
        cbn [nth mentions symbol_eqb] in Hm;
        apply orb_prop in Hm as [Hm|Hm];
        try (apply Hold in Hm; lia);
        apply Nat.eqb_eq in Hm; lia.
Qed.

Lemma coords_euler (m : nat) (x : expr) :
  In x (coords m) ->
  forall rho : env, rho Sym_r * eval rho (diff x Sym_r) = eval rho x.
Proof.
  revert x. induction m as [|m IH]; intros x Hx rho.
  - simpl in Hx. destruct Hx as [<-|[<-|[]]]; simpl; ring.
  - assert (Hold : In (last (coords m) (Int 0)) (coords m)).
    { destruct (coords_snoc m) as (prefix & E & _).
      rewrite E at 2. apply in_or_app. right. now left. }
    destruct (coords_snoc m) as (prefix & Em & _ & ES).
    rewrite ES in Hx. apply in_app_or in Hx as [Hx|[<-|[<-|[]]]].
    + apply IH. rewrite Em. apply in_or_app. now left.
    + cbn [diff eval Neg symbol_eqb]. rewrite <- (IH _ Hold rho) at 2.
      simpl. ring.
    + cbn [diff eval Neg symbol_eqb]. rewrite <- (IH _ Hold rho) at 2.
      simpl. ring.
Qed.

(** X4: for every n >= 1 the Jacobian has zeros above its first
    superdiagonal (component i does not depend on the angles after phi_i),
    and r times its first column is the parametrization itself. *)
Theorem jacobian_shape (dim : Z) :
  (1 <= dim)%Z ->
  exists self xs j,
    __init__ dim = inr self /\
    _cartesian_to_spherical self = (inr [xs], self) /\
    jacobian self = (inr j, self) /\
    forall rho : env,
      (forall i k, (i + 2 <= k)%nat -> (k < length j)%nat ->
         eval rho (entry j i k) = 0) /\
      (forall i, (i < length j)%nat ->
         rho (r self) * eval rho (entry j i 0)
         = eval rho (nth i xs (Int 0))).
Proof.
  intros H. set (m := Z.to_nat (dim - 2)).
  exists (instance dim), (coords m), (jacobian_entries m).
  split; [apply (__init___ok dim H)|].
  split; [apply _cartesian_to_spherical_run|].
  split; [apply jacobian_run|].
  intros rho. rewrite jacobian_entries_length. split.
  - intros i k Hik Hk. rewrite entry_jacobian_entries by lia.
    apply diff_fresh. destruct k as [|k]; [lia|]. cbn [var_at].
    destruct (mentions (Sym_phi k) (nth i (coords m) (Int 0))) eqn:E;
      [|reflexivity].
    apply coords_mentions in E; lia.
  - intros i Hi. rewrite entry_jacobian_entries by lia.
    apply (coords_euler m). apply nth_In. rewrite coords_length. exact Hi.
Qed.

Lemma jacobian_shape_witness :
  exists self xs j,
    __init__ 4 = inr self /\
    _cartesian_to_spherical self = (inr [xs], self) /\
    jacobian self = (inr j, self) /\
    forall rho : env,
      (forall i k, (i + 2 <= k)%nat -> (k < length j)%nat ->
         eval rho (entry j i k) = 0) /\
      (forall i, (i < length j)%nat ->
         rho (r self) * eval rho (entry j i 0)
         = eval rho (nth i xs (Int 0))).
Proof. apply (jacobian_shape 4). lia. Defined.

(** ** More on the determinant *)

Lemma Rprod_nonneg (k : nat) (f : nat -> R) :
  (forall i, (i < k)%nat -> 0 <= f i) -> 0 <= Rprod k f.
Proof.
  induction k as [|k IH]; intros H; simpl; [lra|].
  apply Rmult_le_pos; [apply IH; auto with arith|apply H; lia].
Qed.

Section Determinants.

Variable simplify : expr -> expr.
Hypothesis simplify_sound :
  forall (rho : env) (e : expr), eval rho (simplify e) = eval rho e.

(** X5: for every n >= 1 the simplified determinant is non-negative on the
    domain of integration: r >= 0 and every angle but the last in
    [0, pi]. *)
Theorem jacobian_det_nonnegative (dim : Z) :
  (1 <= dim)%Z ->
  exists self d,
    __init__ dim = inr self /\
    jacobian_det simplify self = (inr d, self) /\
    forall rho : env,
      0 <= rho (r self) ->
      (forall phi, In phi (removelast (phis self)) -> 0 <= rho phi <= PI) ->
      0 <= eval rho d.
Proof.
  intros H. set (m := Z.to_nat (dim - 2)).
  eexists. eexists.
  split; [apply (__init___ok dim H)|].
  split; [apply jacobian_det_run|].
  intros rho Hr Hphi. rewrite (eval_jacobian_det simplify simplify_sound).
  unfold components, volume_element. fold m.
  replace (S (S m) - 1)%nat with (S m) by lia.
  replace (S (S m) - 2)%nat with m by lia.
  cbn [eval]. rewrite eval_sine_powers.
  apply Rmult_le_pos; [now apply pow_le|].
  apply Rprod_nonneg. intros i Hi. apply pow_le, sin_ge_0; apply Hphi.
  - unfold instance. cbn [phis]. fold m.
    rewrite symbols_phi0_upto_S, removelast_last.
    apply in_map, in_seq. lia.
  - unfold instance. cbn [phis]. fold m.
    rewrite symbols_phi0_upto_S, removelast_last.
    apply in_map, in_seq. lia.
Qed.

(** X6: for every n >= 1 the simplified determinant does not depend on the
    last angular symbol, the one integrated over the full turn. *)
Theorem jacobian_det_ignores_last_angle (dim : Z) :
  (1 <= dim)%Z ->
  exists self d,
    __init__ dim = inr self /\
    jacobian_det simplify self = (inr d, self) /\
    forall (rho : env) (t : R),
      eval (upd rho (last (phis self) Sym_r) t) d = eval rho d.
Proof.
  intros H. set (m := Z.to_nat (dim - 2)).
  eexists. eexists.
  split; [apply (__init___ok dim H)|].
  split; [apply jacobian_det_run|].
  intros rho t. rewrite !(eval_jacobian_det simplify simplify_sound).
  unfold components, volume_element, instance. cbn [phis]. fold m.
  rewrite symbols_phi0_upto_S, last_last.
  replace (S (S m) - 1)%nat with (S m) by lia.
  replace (S (S m) - 2)%nat with m by lia.
  cbn [eval]. rewrite !eval_sine_powers_angular.
  rewrite upd_other by discriminate.
  rewrite angular_product_upd; [reflexivity|].
  intros i Hi [= ->]. apply in_seq in Hi. lia.
Qed.

(** X7: for every n >= 2, going from dimension n to n + 1 multiplies the
    determinant by the last component of the parametrization in
    dimension n. *)
Theorem jacobian_det_next_dimension (dim : Z) :
  (2 <= dim)%Z ->
  exists self xs d self' d',
    __init__ dim = inr self /\
    _cartesian_to_spherical self = (inr [xs], self) /\
    jacobian_det simplify self = (inr d, self) /\
    __init__ (dim + 1) = inr self' /\
    jacobian_det simplify self' = (inr d', self') /\
    forall rho : env,
      eval rho d' = eval rho (last xs (Int 0)) * eval rho d.
Proof.
  intros H. set (m := Z.to_nat (dim - 2)).
  exists (instance dim), (coords m). eexists. exists (instance (dim + 1)).
  eexists.
  split; [apply __init___ok; lia|].
  split; [apply _cartesian_to_spherical_run|].
  split; [apply jacobian_det_run|].
  split; [apply __init___ok; lia|].
  split; [apply jacobian_det_run|].
  intros rho. rewrite !simplify_sound. unfold components.
  replace (Z.to_nat (dim + 1 - 2)) with (S m) by (unfold m; lia).
  fold m. rewrite !eval_det_jacobian. apply det_jacobian_step.
Qed.

End Determinants.

Lemma jacobian_det_nonnegative_witness :
  exists self d,
    __init__ 4 = inr self /\
    jacobian_det (fun e => e) self = (inr d, self) /\
    0 <= eval (fun _ => 1) d.
Proof.
  destruct (jacobian_det_nonnegative (fun e => e) (fun _ _ => eq_refl) 4)
    as (self & d & Hinit & Hrun & Hnn); [lia|].
  exists self, d. split; [exact Hinit|]. split; [exact Hrun|].
  apply Hnn; [lra|]. intros phi _. pose proof PI2_1. lra.
Defined.

Lemma jacobian_det_ignores_last_angle_witness :
  exists self d,
    __init__ 4 = inr self /\
    jacobian_det (fun e => e) self = (inr d, self) /\
    forall (rho : env) (t : R),
      eval (upd rho (last (phis self) Sym_r) t) d = eval rho d.
Proof.
  apply (jacobian_det_ignores_last_angle (fun e => e)
           (fun _ _ => eq_refl) 4).
  lia.
Defined.

Lemma jacobian_det_next_dimension_witness :
  exists self xs d self' d',
    __init__ 3 = inr self /\
    _cartesian_to_spherical self = (inr [xs], self) /\
    jacobian_det (fun e => e) self = (inr d, self) /\
    __init__ 4 = inr self' /\
    jacobian_det (fun e => e) self' = (inr d', self') /\
    forall rho : env,
      eval rho d' = eval rho (last xs (Int 0)) * eval rho d.
Proof.
  apply (jacobian_det_next_dimension (fun e => e) (fun _ _ => eq_refl) 3).
  lia.
Defined.

(** ** Methods on any instance *)

Lemma read_only_ret {A} (a : A) : read_only (ret a).
Proof. intros self. reflexivity. Qed.

Lemma read_only_raise {A} (e : exn) : read_only (@raise A e).
Proof. intros self. reflexivity. Qed.

Lemma read_only_attr {A} (f : GaussianIntegral -> A) : read_only (attr f).
Proof. intros self. reflexivity. Qed.

Lemma read_only_lift {A} (x : exn + A) : read_only (lift x).
Proof. intros self. reflexivity. Qed.

Lemma read_only_bind {A B} (c : M A) (k : A -> M B) :
  read_only c -> (forall a, read_only (k a)) -> read_only (bind c k).
Proof.
  intros Hc Hk self. unfold bind. specialize (Hc self).
  destruct (c self) as [[e|a] self']; simpl in Hc; subst self'.
  - reflexivity.
  - apply Hk.
Qed.

Lemma read_only_getitem {A} (l : list A) (i : Z) : read_only (getitem l i).
Proof.
  unfold getitem. destruct (py_index _ _) as [k|].
  - destruct (nth_error l k); [apply read_only_ret|apply read_only_raise].
  - apply read_only_raise.
Qed.

Lemma read_only_setitem {A} (l : list A) (i : Z) (v : A) :
  read_only (setitem l i v).
Proof.
  unfold setitem.
  destruct (py_index _ _); [apply read_only_ret|apply read_only_raise].
Qed.

Lemma read_only_for_each {I St} (items : list I) (body : I -> St -> M St) :
  (forall i s, read_only (body i s)) ->
  forall s, read_only (for_each items body s).
Proof.
  intros Hbody. induction items as [|i items IH]; intros s.
  - apply read_only_ret.
  - cbn [for_each]. apply read_only_bind; [apply Hbody|exact IH].
Qed.

Create HintDb read_only.

#[local] Hint Resolve read_only_ret read_only_raise read_only_attr
  read_only_lift read_only_getitem read_only_setitem : read_only.

Ltac read_only_steps :=
  repeat (apply read_only_bind; [|intros ?]);
  try (apply read_only_for_each; intros);
  auto with read_only.

Lemma read_only_split_coordinate (i : Z) (x_coords : list expr) :
  read_only (split_coordinate i x_coords).
Proof. unfold split_coordinate. read_only_steps. Qed.

#[local] Hint Resolve read_only_split_coordinate : read_only.

Lemma read_only__cartesian_to_spherical : read_only _cartesian_to_spherical.
Proof. unfold _cartesian_to_spherical. read_only_steps. Qed.

#[local] Hint Resolve read_only__cartesian_to_spherical : read_only.

Lemma read_only_jacobian : read_only jacobian.
Proof. unfold jacobian. read_only_steps. Qed.

#[local] Hint Resolve read_only_jacobian : read_only.

Lemma read_only_jacobian_det (simplify : expr -> expr) :
  read_only (jacobian_det simplify).
Proof. unfold jacobian_det. read_only_steps. Qed.

#[local] Hint Resolve read_only_jacobian_det : read_only.

Lemma read_only_doit (simplify : expr -> expr) : read_only (doit simplify).
Proof.
  unfold doit. read_only_steps.
  destruct (_ =? _)%Z; auto with read_only.
Qed.

(** X8: no method ever changes the attributes: on any instance, however
    its attributes were set and whether the call returns or raises, the
    instance after the call is the instance before it. *)
Theorem methods_never_modify (simplify : expr -> expr)
  (self : GaussianIntegral) :
  snd (_cartesian_to_spherical self) = self /\
  snd (jacobian self) = self /\
  snd (jacobian_det simplify self) = self /\
  snd (doit simplify self) = self /\
  forall qs, snd (ask_all simplify qs self) = self.
Proof.
  split; [apply read_only__cartesian_to_spherical|].
  split; [apply read_only_jacobian|].
  split; [apply read_only_jacobian_det|].
  split; [apply read_only_doit|].
  intros qs. revert self. induction qs as [|q qs IH]; intros self.
  - reflexivity.
  - cbn [ask_all].
    assert (Hq : snd (ask simplify q self) = self).
    { destruct q; unfold ask, map_result;
        (apply read_only_bind; [|intros ?; apply read_only_ret]).
      - apply read_only_jacobian.
      - apply read_only_jacobian_det.
      - apply read_only_doit. }
    destruct (ask simplify q self) as [a self']. simpl in Hq. subst self'.
    specialize (IH self).
    destruct (ask_all simplify qs self) as [rest self'']. exact IH.
Qed.

Lemma py_index_out (len k : nat) :
  (len <= k)%nat -> py_index len (Z.of_nat k) = None.
Proof.
  intros H. unfold py_index.
  replace ((Z.of_nat k <? Z.of_nat len)%Z) with false
    by (symmetry; apply Z.ltb_ge; lia).
  replace ((Z.of_nat k <? 0)%Z) with false
    by (symmetry; apply Z.ltb_ge; lia).
  now rewrite !andb_false_r.
Qed.

Lemma getitem_out {A} (l : list A) (k : nat) (self : GaussianIntegral) :
  (length l <= k)%nat ->
  getitem l (Z.of_nat k) self = (inl IndexError, self).
Proof. intros H. unfold getitem. now rewrite (py_index_out _ _ H). Qed.

Lemma length_list_set {A} (l : list A) (k : nat) (v : A) :
  length (list_set l k v) = length l.
Proof.
  revert k. induction l as [|x l IH]; intros [|k]; simpl; auto.
Qed.

(** One iteration on any instance: it needs the angular symbol of its
    index. *)
Lemma split_coordinate_any (self : GaussianIntegral) (j : nat)
  (xs : list expr) :
  length xs = S j ->
  if (j <? length (phis self))%nat
  then exists xs', split_coordinate (Z.of_nat j) xs self = (inr xs', self)
                   /\ length xs' = S (S j)
  else split_coordinate (Z.of_nat j) xs self = (inl IndexError, self).
Proof.
  intros Hlen. unfold split_coordinate, bind, attr, ret.
  assert (Hj : (j < length xs)%nat) by lia.
  rewrite (getitem_nonneg xs j (Int 0) self Hj).
  destruct (Nat.ltb_spec j (length (phis self))) as [Hlt|Hge].
  - rewrite !(getitem_nonneg (phis self) j Sym_r self Hlt).
    rewrite (setitem_nonneg xs j _ self Hj).
    rewrite !(getitem_nonneg (phis self) j Sym_r self Hlt).
    eexists. split; [reflexivity|].
    rewrite length_app, length_list_set, Hlen. simpl. lia.
  - now rewrite (getitem_out (phis self) j self Hge).
Qed.

(** The loop on any instance, from index [j] for [c] iterations. *)
Lemma loop_any (self : GaussianIntegral) (c : nat) :
  forall (j : nat) (xs : list expr),
    length xs = S j ->
    if ((c =? 0) || (j + c <=? length (phis self)))%nat
    then exists xs',
        for_each (map Z.of_nat (seq j c)) split_coordinate xs self
        = (inr xs', self) /\ length xs' = (S j + c)%nat
    else for_each (map Z.of_nat (seq j c)) split_coordinate xs self
         = (inl IndexError, self).
Proof.
  induction c as [|c IH]; intros j xs Hlen.
  - cbn. exists xs. split; [reflexivity|lia].
  - cbn [seq map for_each Nat.eqb orb]. unfold bind.
    pose proof (split_coordinate_any self j xs Hlen) as Hstep.
    destruct (Nat.ltb_spec j (length (phis self))) as [Hlt|Hge].
    + destruct Hstep as (xs' & -> & Hlen').
      specialize (IH (S j) xs' Hlen').
      destruct (Nat.leb_spec (j + S c) (length (phis self))) as [Hle|Hgt].
      * replace ((c =? 0) || (S j + c <=? length (phis self)))%nat
          with true in IH
          by (symmetry; apply orb_true_iff; right; apply Nat.leb_le; lia).
        destruct IH as (xs'' & -> & Hlen'').
        exists xs''. split; [reflexivity|lia].
      * destruct c as [|c].
        -- lia.
        -- replace ((S c =? 0) || (S j + S c <=? length (phis self)))%nat
             with false in IH
             by (symmetry; apply orb_false_iff; split;
                 [reflexivity|apply Nat.leb_gt; lia]).
           exact IH.
    + rewrite Hstep.
      destruct (Nat.leb_spec (j + S c) (length (phis self))); [lia|].
      reflexivity.
Qed.

(** With a first angular symbol, the method is its loop, started on the
    planar pair. *)
Lemma _cartesian_to_spherical_unfold (self : GaussianIntegral)
  (p : symbol) (ps : list symbol) :
  phis self = p :: ps ->
  _cartesian_to_spherical self
  = (xs <- for_each (map Z.of_nat (seq 1 (Z.to_nat (n self - 2))))
             split_coordinate
             [Mul (Sym (r self)) (Cos (Sym p));
              Mul (Sym (r self)) (Sin (Sym p))] ;;
     ret (transpose (Matrix_of_list xs))) self.
Proof.
  intros E. unfold _cartesian_to_spherical, bind, attr.
  change 0%Z with (Z.of_nat 0).
  assert (Hget : getitem (phis self) (Z.of_nat 0) self = (inr p, self)).
  { rewrite E. apply (getitem_nonneg (p :: ps) 0 Sym_r self). simpl. lia. }
  rewrite Hget. cbv beta iota. rewrite Hget. cbv beta iota.
  unfold range.
  replace (n self - 1 - 1)%Z with (n self - 2)%Z by lia.
  now rewrite range_from_one.
Qed.

Lemma _cartesian_to_spherical_any (self : GaussianIntegral) :
  phis self <> [] ->
  (n self - 1 <= Z.of_nat (length (phis self)))%Z ->
  exists xs,
    _cartesian_to_spherical self = (inr [xs], self) /\
    length xs = max_components self.
Proof.
  intros Hne Hn. destruct (phis self) as [|p ps] eqn:E; [congruence|].
  rewrite (_cartesian_to_spherical_unfold self p ps E). unfold bind.
  pose proof (loop_any self (Z.to_nat (n self - 2)) 1
                [Mul (Sym (r self)) (Cos (Sym p));
                 Mul (Sym (r self)) (Sin (Sym p))] eq_refl) as Hloop.
  rewrite E in Hloop. cbn [length] in Hn, Hloop.
  replace ((Z.to_nat (n self - 2) =? 0)
           || (1 + Z.to_nat (n self - 2) <=? S (length ps)))%nat
    with true in Hloop.
  2:{ symmetry. apply orb_true_iff. right. apply Nat.leb_le. lia. }
  destruct Hloop as (xs & -> & Hlen). exists xs.
  unfold ret. rewrite transpose_column by (intros ->; discriminate).
  split; [reflexivity|]. unfold max_components. lia.
Qed.

(** X9: on any instance, however its attributes were set, the
    parametrization succeeds exactly when phis has at least one symbol and
    at least n - 1 of them, and then has max(2, n) components; otherwise it
    raises IndexError, and so does [jacobian]; with no angular symbol at
    all every method raises IndexError. *)
Theorem parametrization_on_any_instance (self : GaussianIntegral) :
  (phis self = [] ->
   _cartesian_to_spherical self = (inl IndexError, self) /\
   jacobian self = (inl IndexError, self) /\
   forall simplify,
     jacobian_det simplify self = (inl IndexError, self) /\
     doit simplify self = (inl IndexError, self)) /\
  (phis self <> [] ->
   (n self - 1 <= Z.of_nat (length (phis self)))%Z ->
   exists xs,
     _cartesian_to_spherical self = (inr [xs], self) /\
     length xs = max_components self) /\
  (phis self <> [] ->
   (Z.of_nat (length (phis self)) < n self - 1)%Z ->
   _cartesian_to_spherical self = (inl IndexError, self) /\
   jacobian self = (inl IndexError, self)).
Proof.
  assert (Hjac : _cartesian_to_spherical self = (inl IndexError, self) ->
                 jacobian self = (inl IndexError, self)).
  { intros E. unfold jacobian, bind, attr. now rewrite E. }
  split; [|split].
  - intros E.
    assert (H : _cartesian_to_spherical self = (inl IndexError, self)).
    { unfold _cartesian_to_spherical, bind, attr. now rewrite E. }
    split; [exact H|]. split; [now apply Hjac|].
    intros simplify. split.
    + unfold jacobian_det, bind. now rewrite (Hjac H).
    + unfold doit, bind, attr. now rewrite E.
  - apply _cartesian_to_spherical_any.
  - intros Hne Hn. destruct (phis self) as [|p ps] eqn:E; [congruence|].
    assert (H : _cartesian_to_spherical self = (inl IndexError, self)).
    { rewrite (_cartesian_to_spherical_unfold self p ps E). unfold bind.
      pose proof (loop_any self (Z.to_nat (n self - 2)) 1
                    [Mul (Sym (r self)) (Cos (Sym p));
                     Mul (Sym (r self)) (Sin (Sym p))] eq_refl) as Hloop.
      rewrite E in Hloop. cbn [length] in Hn, Hloop.
      replace ((Z.to_nat (n self - 2) =? 0)
               || (1 + Z.to_nat (n self - 2) <=? S (length ps)))%nat
        with false in Hloop.
      2:{ symmetry. apply orb_false_iff. split;
            [apply Nat.eqb_neq|apply Nat.leb_gt]; lia. }
      now rewrite Hloop. }
    split; [exact H|now apply Hjac].
Qed.

Lemma parametrization_on_any_instance_witness :
  doit (fun e => e) {| n := 3; r := Sym_r; phis := [] |}
  = (inl IndexError, {| n := 3; r := Sym_r; phis := [] |}) /\
  (exists xs,
     _cartesian_to_spherical
       {| n := 1; r := Sym_r; phis := [Sym_phi 0; Sym_phi 1; Sym_phi 2] |}
     = (inr [xs],
        {| n := 1; r := Sym_r; phis := [Sym_phi 0; Sym_phi 1; Sym_phi 2] |}) /\
     length xs = 2%nat) /\
  _cartesian_to_spherical {| n := 4; r := Sym_r; phis := [Sym_phi 0] |}
  = (inl IndexError, {| n := 4; r := Sym_r; phis := [Sym_phi 0] |}).
Proof.
  split; [|split].
  - destruct (parametrization_on_any_instance
                {| n := 3; r := Sym_r; phis := [] |}) as (H & _ & _).
    destruct (H eq_refl) as (_ & _ & Hall).
    apply (Hall (fun e => e)).
  - destruct (parametrization_on_any_instance
                {| n := 1; r := Sym_r;
                   phis := [Sym_phi 0; Sym_phi 1; Sym_phi 2] |})
      as (_ & H & _).
    apply H; [discriminate|simpl; lia].
  - destruct (parametrization_on_any_instance
                {| n := 4; r := Sym_r; phis := [Sym_phi 0] |})
      as (_ & _ & H).
    apply H; [discriminate|simpl; lia].
Defined.

(** X10: on any instance on which the parametrization succeeds, [jacobian]
    returns a matrix with max(2, n) rows, each with one entry per symbol of
    [r] and [phis]; [jacobian_det] returns a determinant when these two
    numbers agree, as they do after construction, and raises
    NonSquareMatrixError when they do not. *)
Theorem jacobian_on_any_instance (simplify : expr -> expr)
  (self : GaussianIntegral) :
  phis self <> [] ->
  (n self - 1 <= Z.of_nat (length (phis self)))%Z ->
  exists j,
    jacobian self = (inr j, self) /\
    length j = max_components self /\
    (forall row, In row j -> length row = S (length (phis self))) /\
    (max_components self = S (length (phis self)) ->
     exists d, jacobian_det simplify self = (inr d, self)) /\
    (max_components self <> S (length (phis self)) ->
     jacobian_det simplify self = (inl NonSquareMatrixError, self)).
Proof.
  intros Hne Hn.
  destruct (_cartesian_to_spherical_any self Hne Hn) as (xs & Hrun & Hlen).
  assert (Hjac : jacobian self
                 = (inr (map (fun f => map (diff f) (r self :: phis self)) xs),
                    self)).
  { unfold jacobian, bind, attr. rewrite Hrun.
    unfold lift, Matrix_jacobian. cbn [length Nat.eqb orb concat].
    now rewrite app_nil_r. }
  set (j := map (fun f => map (diff f) (r self :: phis self)) xs) in *.
  assert (Hrows : forall row, In row j -> length row = S (length (phis self))).
  { intros row Hrow. unfold j in Hrow.
    apply in_map_iff in Hrow as (f & <- & _). now rewrite length_map. }
  assert (Hj : length j = max_components self)
    by (unfold j; now rewrite length_map).
  assert (Hxs : j <> []).
  { intros E. rewrite E in Hj. unfold max_components in Hj. simpl in Hj.
    lia. }
  exists j. split; [exact Hjac|]. split; [exact Hj|]. split; [exact Hrows|].
  split.
  - intros Hsq. eexists. unfold jacobian_det, bind. rewrite Hjac.
    unfold lift, Matrix_det.
    replace (forallb (fun row => (length row =? length j)%nat) j) with true.
    + reflexivity.
    + symmetry. apply forallb_forall. intros row Hrow.
      apply Nat.eqb_eq. rewrite (Hrows row Hrow). lia.
  - intros Hsq. unfold jacobian_det, bind. rewrite Hjac.
    unfold lift, Matrix_det.
    replace (forallb (fun row => (length row =? length j)%nat) j) with false.
    + reflexivity.
    + symmetry. destruct j as [|row j']; [congruence|].
      cbn [forallb].
      replace (length row =? length (row :: j'))%nat with false;
        [reflexivity|].
      symmetry. apply Nat.eqb_neq.
      rewrite (Hrows row (or_introl eq_refl)). lia.
Qed.

Lemma jacobian_on_any_instance_witness :
  exists j,
    jacobian {| n := 2; r := Sym_r; phis := [Sym_phi 0; Sym_phi 1] |}
    = (inr j, {| n := 2; r := Sym_r; phis := [Sym_phi 0; Sym_phi 1] |}) /\
    length j = 2%nat /\
    jacobian_det (fun e => e)
      {| n := 2; r := Sym_r; phis := [Sym_phi 0; Sym_phi 1] |}
    = (inl NonSquareMatrixError,
       {| n := 2; r := Sym_r; phis := [Sym_phi 0; Sym_phi 1] |}).
Proof.
  destruct (jacobian_on_any_instance (fun e => e)
              {| n := 2; r := Sym_r; phis := [Sym_phi 0; Sym_phi 1] |})
    as (j & Hj & Hlen & _ & _ & Herr).
  - discriminate.
  - simpl. lia.
  - exists j. split; [exact Hj|]. split; [exact Hlen|].
    apply Herr. vm_compute. discriminate.
Defined.

(** ** What the constructor establishes *)

Lemma NoDup_symbols_phi0_upto (k : nat) : NoDup (symbols_phi0_upto k).
Proof.
  unfold symbols_phi0_upto. apply Finite.Injective_map_NoDup.
  - intros a b [= ->]. reflexivity.
  - apply seq_NoDup.
Qed.

(** X11: for every n >= 1 the constructed instance keeps n, has
    max(1, n - 1) angular symbols, its symbols are pairwise distinct, and
    the parametrization has as many components as there are symbols: the
    conditions under which the methods succeed and the Jacobian is
    square. *)
Theorem constructed_instance_invariant (dim : Z) :
  (1 <= dim)%Z ->
  exists self,
    __init__ dim = inr self /\
    n self = dim /\
    length (phis self) = Z.to_nat (Z.max 1 (dim - 1)) /\
    NoDup (r self :: phis self) /\
    phis self <> [] /\
    (n self - 1 <= Z.of_nat (length (phis self)))%Z /\
    max_components self = S (length (phis self)).
Proof.
  intros H. exists (instance dim).
  split; [apply (__init___ok dim H)|].
  assert (Hlen : length (phis (instance dim)) = S (Z.to_nat (dim - 2))).
  { unfold instance, symbols_phi0_upto. cbn [phis].
    now rewrite length_map, length_seq. }
  split; [reflexivity|].
  split; [rewrite Hlen; lia|].
  split.
  { unfold instance. cbn [r phis]. constructor.
    - unfold symbols_phi0_upto. intros Hin.
      apply in_map_iff in Hin as (k & Hk & _). discriminate.
    - apply NoDup_symbols_phi0_upto. }
  split.
  { intros E. rewrite E in Hlen. discriminate. }
  split; [rewrite Hlen; cbn [n instance]; lia|].
  rewrite Hlen. unfold max_components. cbn [n instance]. lia.
Qed.

Lemma constructed_instance_invariant_witness :
  exists self,
    __init__ 4 = inr self /\
    length (phis self) = 3%nat /\
    max_components self = 4%nat.
Proof.
  destruct (constructed_instance_invariant 4) as
    (self & Hinit & _ & Hlen & _ & _ & _ & Hmax); [lia|].
  exists self. split; [exact Hinit|]. split; [exact Hlen|].
  rewrite Hmax, Hlen. reflexivity.
Defined.
